(** * Stone Soup: the information-filter predictor and the particle types

    A shallow embedding of [stonesoup/predictor/information.py] and
    [stonesoup/types/particle.py].

    Numbers: numpy's float64 entries are idealised as exact rationals
    ([Qc], canonical fractions with Leibniz equality); rounding, NaN and
    infinities are outside this model.  Arrays are two-dimensional, as all
    arrays of the predictor are (state vectors are n-by-1 columns). *)

From Stdlib Require Import QArith Qcanon Field.
From stdpp Require Import base tactics option list numbers strings.

Open Scope Qc_scope.
Open Scope nat_scope.

(** ** Exceptions

    The first four are the exceptions the code can raise (numpy's
    [ValueError] for mismatched shapes, [numpy.linalg.LinAlgError],
    Python's [AttributeError], and [TypeError] for a keyword argument given
    twice); the last three are the error kinds named by the
    specification's taxonomy. *)

Inductive matrix_role := RoleF | RoleQ | RoleSigma.

Inductive exn :=
| ValueError
| LinAlgError
| AttributeError
| TypeError
| ConfigurationError
| IncompatibleDimensionsError
| SingularMatrixError (role : matrix_role).

Inductive result (A : Type) :=
| Ok (a : A)
| Raise (e : exn).
Arguments Ok {A} a.
Arguments Raise {A} e.

#[global] Instance matrix_role_eq_dec : EqDecision matrix_role.
Proof. solve_decision. Defined.
#[global] Instance exn_eq_dec : EqDecision exn.
Proof. solve_decision. Defined.
#[global] Instance result_eq_dec `{EqDecision A} : EqDecision (result A).
Proof. solve_decision. Defined.

(** ** Arrays *)

Module Array.

Abbreviation row := (list Qc).

(** A two-dimensional array: its shape and its rows. *)
Record ndarray := NDArray { nrows : nat; ncols : nat; rows : list row }.

#[global] Instance ndarray_eq_dec : EqDecision ndarray.
Proof. solve_decision. Defined.

Definition shape (A : ndarray) : nat * nat := (nrows A, ncols A).

(** [A[i, j]]; reads outside the stored rows give 0. *)
Definition get (A : ndarray) (i j : nat) : Qc := nth j (nth i (rows A) []) 0%Qc.

Definition tabulate (r c : nat) (f : nat -> nat -> Qc) : ndarray :=
  NDArray r c (map (fun i => map (fun j => f i j) (seq 0 c)) (seq 0 r)).

Definition of_rows (l : list row) : ndarray :=
  NDArray (length l) (length (hd [] l)) l.

(** [np.zeros((r, c))], [np.ones((r, c))], [np.identity(n)] *)
Definition zeros (r c : nat) : ndarray := tabulate r c (fun _ _ => 0%Qc).
Definition ones (r c : nat) : ndarray := tabulate r c (fun _ _ => 1%Qc).
Definition identity (n : nat) : ndarray :=
  tabulate n n (fun i j => if decide (i = j) then 1%Qc else 0%Qc).

(** [A.T] *)
Definition transpose (A : ndarray) : ndarray :=
  tabulate (ncols A) (nrows A) (fun i j => get A j i).

Definition sum (l : list Qc) : Qc := foldr Qcplus 0%Qc l.

Definition dot (u v : row) : Qc := sum (zip_with Qcmult u v).

Definition row_of (A : ndarray) (i : nat) : row :=
  map (fun k => get A i k) (seq 0 (ncols A)).
Definition col_of (A : ndarray) (j : nat) : row :=
  map (fun k => get A k j) (seq 0 (nrows A)).

(** The product of an r-by-k and a k-by-c array. *)
Definition mmul (A B : ndarray) : ndarray :=
  tabulate (nrows A) (ncols B) (fun i j => dot (row_of A i) (col_of B j)).

(** The row vector [e] times the array [A]. *)
Definition vecmat (e : row) (A : ndarray) : row :=
  map (fun j => dot e (col_of A j)) (seq 0 (ncols A)).

(** numpy broadcasting of two-dimensional shapes: along each axis the
    lengths agree, or one of them is 1 and that operand is repeated. *)
Definition broadcastable (a b : nat) : Prop := a = b \/ a = 1 \/ b = 1.

Definition broadcast_dim (a b : nat) : nat := if decide (a = 1) then b else a.

Definition bget (A : ndarray) (i j : nat) : Qc :=
  get A (if decide (nrows A = 1) then 0 else i) (if decide (ncols A = 1) then 0 else j).

Definition zip_broadcast (f : Qc -> Qc -> Qc) (A B : ndarray) : ndarray :=
  tabulate (broadcast_dim (nrows A) (nrows B)) (broadcast_dim (ncols A) (ncols B))
    (fun i j => f (bget A i j) (bget B i j)).

Definition broadcast2 (f : Qc -> Qc -> Qc) (A B : ndarray) : option ndarray :=
  if decide (broadcastable (nrows A) (nrows B) /\ broadcastable (ncols A) (ncols B))
  then Some (zip_broadcast f A B)
  else None.

(** Sum and difference, entry by entry. *)
Definition madd : ndarray -> ndarray -> ndarray := zip_broadcast Qcplus.
Definition msub : ndarray -> ndarray -> ndarray := zip_broadcast Qcminus.

(** *** Inversion by Gauss-Jordan elimination

    The rows of [A | I] are kept as pairs [(a, e)].  For each column [k]
    a row with a non-zero entry in that column is taken from the rows
    not yet used, scaled to have 1 there and subtracted from all other
    rows.  LAPACK picks the entry of largest magnitude; in exact
    arithmetic every non-zero pivot leads to the same inverse. *)

Abbreviation aug := (list Qc * list Qc)%type.

Definition scale (c : Qc) (x : row) : row := map (Qcmult c) x.
(** [y - c * x] *)
Definition axpy (c : Qc) (x y : row) : row :=
  zip_with (fun xi yi => (yi - c * xi)%Qc) x y.

Fixpoint find_pivot (k : nat) (todo : list aug) : option (aug * list aug) :=
  match todo with
  | [] => None
  | r :: rest =>
      if decide (nth k (fst r) 0%Qc = 0%Qc) then
        match find_pivot k rest with
        | Some (p, rest') => Some (p, r :: rest')
        | None => None
        end
      else Some (r, rest)
  end.

Definition normalise (k : nat) (p : aug) : aug :=
  let c := (/ nth k (fst p) 0)%Qc in (scale c (fst p), scale c (snd p)).

Definition eliminate (k : nat) (p r : aug) : aug :=
  let c := nth k (fst r) 0%Qc in (axpy c (fst p) (fst r), axpy c (snd p) (snd r)).

Fixpoint gauss_jordan (steps k : nat) (used todo : list aug) : option (list aug) :=
  match steps with
  | O => Some used
  | S steps' =>
      match find_pivot k todo with
      | None => None
      | Some (p, rest) =>
          let p' := normalise k p in
          gauss_jordan steps' (S k)
            (map (eliminate k p') used ++ [p']) (map (eliminate k p') rest)
      end
  end.

Definition augment (A : ndarray) : list aug :=
  map (fun i => (row_of A i, row_of (identity (nrows A)) i)) (seq 0 (nrows A)).

(** The inverse of a square array, [None] when elimination finds no
    pivot (the array is singular) or the array is not square. *)
Definition inverse (A : ndarray) : option ndarray :=
  if decide (nrows A = ncols A) then
    match gauss_jordan (nrows A) 0 [] (augment A) with
    | Some used => Some (NDArray (nrows A) (nrows A) (map snd used))
    | None => None
    end
  else None.

(** *** Predicates on the rows of an elimination in progress *)

Definition delta (i j : nat) : Qc := if decide (i = j) then 1%Qc else 0%Qc.

(** An augmented row [(a, e)] of the elimination of [A] satisfies [a = e A]. *)
Definition row_ok (A : ndarray) (r : aug) : Prop :=
  length (fst r) = ncols A /\ length (snd r) = ncols A /\ fst r = vecmat (snd r) A.

(** The first [k] entries of the row are 0. *)
Definition cleared (k : nat) (r : aug) : Prop :=
  forall j, j < k -> nth j (fst r) 0%Qc = 0%Qc.

(** The first [k] columns of the rows are unit columns. *)
Definition reduced (k : nat) (used : list aug) : Prop :=
  forall i r j, used !! i = Some r -> j < k -> nth j (fst r) 0%Qc = delta i j.

(** The state of an elimination before column [k]. *)
Definition gj_inv (A : ndarray) (k : nat) (used todo : list aug) : Prop :=
  Forall (row_ok A) used /\ Forall (row_ok A) todo
  /\ length used = k /\ reduced k used /\ Forall (cleared k) todo.

(** No vector other than 0 is orthogonal to the right halves of all rows:
    the row operations done so far can be undone. *)
Definition kernel_free (n : nat) (rs : list aug) : Prop :=
  forall w, length w = n -> (forall r, r ∈ rs -> dot (snd r) w = 0%Qc) ->
            forall i, nth i w 0%Qc = 0%Qc.

(** The rows of the array are the table of its entries, as for every
    array an operation returns. *)
Definition tabulated (A : ndarray) : Prop := A = tabulate (nrows A) (ncols A) (get A).

(** The array [A] times the column vector [v]. *)
Definition matvec (A : ndarray) (v : row) : row :=
  map (fun i => dot (row_of A i) v) (seq 0 (nrows A)).

End Array.

Import Array.

(** Closed equalities and inequalities on data are decided by evaluation. *)
Ltac vm_decide :=
  lazymatch goal with
  | |- ?P => apply (@bool_decide_eq_true_1 P _); vm_compute; reflexivity
  end.

Definition q (n : Z) (d : positive) : Qc := Q2Qc (n # d).
Definition qz (n : Z) : Qc := Q2Qc (inject_Z n).


(** ** Effects

    Code that can raise is written in a monad with [mret], [mbind]
    (notation [x ← m; k]) and [mthrow].  Two monads are used: [result]
    for the values alone, and [heap_m], which also threads the store of
    array buffers, so that aliasing and mutation can be stated. *)

#[global] Instance result_ret : MRet result := @Ok.
#[global] Instance result_bind : MBind result :=
  fun A B f m => match m with Ok a => f a | Raise e => Raise e end.
#[global] Instance result_throw : MThrow exn result := @Raise.

(** The numpy operations the predictor uses, over an array type:
    [a @ b]; [a + b] and [a - b], with broadcasting; [a.T] (also written
    [a.transpose()]); [numpy.linalg.inv(a)]; [np.zeros((r, c))],
    [np.ones((r, c))] and [np.identity(n)]. *)
Class Numpy (M : Type -> Type) (array : Type) := {
  np_matmul : array -> array -> M array;
  np_add : array -> array -> M array;
  np_sub : array -> array -> M array;
  np_T : array -> M array;
  np_inv : array -> M array;
  np_zeros : nat -> nat -> M array;
  np_ones : nat -> nat -> M array;
  np_identity : nat -> M array
}.

(** *** Values *)

Module Pure.

(** [a @ b] raises [ValueError] unless the inner dimensions agree. *)
Definition matmul (A B : ndarray) : result ndarray :=
  if decide (ncols A = nrows B) then Ok (mmul A B) else Raise ValueError.

(** [a + b], [a - b] raise [ValueError] when the shapes cannot be
    broadcast together. *)
Definition elementwise (f : Qc -> Qc -> Qc) (A B : ndarray) : result ndarray :=
  match broadcast2 f A B with
  | Some C => Ok C
  | None => Raise ValueError
  end.

(** [inv] raises [LinAlgError] on an array that is not square or is
    singular.  This is the inverse in exact arithmetic: numpy's works in
    float64, where a singular array can go undetected and results can
    overflow.  It stands for numpy's where a statement uses the outcome of
    [inv] and the shape of its result only; [numpy_with] leaves [inv]
    open. *)
Definition inv (A : ndarray) : result ndarray :=
  match inverse A with
  | Some B => Ok B
  | None => Raise LinAlgError
  end.

#[global] Instance numpy : Numpy result ndarray := {|
  np_matmul := matmul;
  np_add := elementwise Qcplus;
  np_sub := elementwise Qcminus;
  np_T := fun A => Ok (transpose A);
  np_inv := inv;
  np_zeros := fun r c => Ok (zeros r c);
  np_ones := fun r c => Ok (ones r c);
  np_identity := fun n => Ok (identity n)
|}.

End Pure.

(** *** Values in a store

    An array object is a view onto a buffer of the store: [a.T] shares the
    buffer of [a], every other operation allocates the buffer of its
    result.  No operation of the predictor writes into an existing buffer. *)

Module Heap.

Abbreviation heap := (list ndarray).

Record ref := Ref { buf : nat; transposed : bool }.

#[global] Instance ref_eq_dec : EqDecision ref.
Proof. solve_decision. Defined.

Definition heap_m (A : Type) : Type := heap -> result A * heap.

#[global] Instance heap_ret : MRet heap_m := fun A a h => (Ok a, h).
#[global] Instance heap_bind : MBind heap_m :=
  fun A B f m h =>
    match m h with
    | (Ok a, h') => f a h'
    | (Raise e, h') => (Raise e, h')
    end.
#[global] Instance heap_throw : MThrow exn heap_m := fun A e h => (Raise e, h).

(** The contents seen through a reference. *)
Definition deref (h : heap) (r : ref) : ndarray :=
  let b := default (NDArray 0 0 []) (h !! buf r) in
  if transposed r then transpose b else b.

Definition alloc (v : ndarray) : heap_m ref :=
  fun h => (Ok (Ref (length h) false), h ++ [v]).

(** Run an operation on values, and allocate its result. *)
Definition lift (v : result ndarray) : heap_m ref :=
  fun h =>
    match v with
    | Ok a => alloc a h
    | Raise e => (Raise e, h)
    end.

Definition lift1 (f : ndarray -> result ndarray) (a : ref) : heap_m ref :=
  fun h => lift (f (deref h a)) h.

Definition lift2 (f : ndarray -> ndarray -> result ndarray) (a b : ref) : heap_m ref :=
  fun h => lift (f (deref h a) (deref h b)) h.

(** [a.T]: a view onto the buffer of [a]. *)
Definition view_T (a : ref) : heap_m ref :=
  mret (Ref (buf a) (negb (transposed a))).

#[global] Instance numpy : Numpy heap_m ref := {|
  np_matmul := lift2 Pure.matmul;
  np_add := lift2 (Pure.elementwise Qcplus);
  np_sub := lift2 (Pure.elementwise Qcminus);
  np_T := view_T;
  np_inv := lift1 Pure.inv;
  np_zeros := fun r c => alloc (zeros r c);
  np_ones := fun r c => alloc (ones r c);
  np_identity := fun n => alloc (identity n)
|}.

(** The store [h'] keeps every buffer of [h] as it is, and may hold new
    ones. *)
Definition grows (h h' : heap) : Prop := exists new, h' = h ++ new.

(** A computation only allocates. *)
Definition allocates_only {A} (m : heap_m A) : Prop := forall h, grows h (snd (m h)).

(** [m] run in [h] keeps the buffers of [h], and its result, when it
    returns one, satisfies [Q] in the final store. *)
Definition wp {A} (m : heap_m A) (h : heap) (Q : A -> heap -> Prop) : Prop :=
  match m h with
  | (Ok a, h') => grows h h' /\ Q a h'
  | (Raise _, h') => grows h h'
  end.

End Heap.

(** ** The objects the predictor works with

    The state, model and prediction classes are declared in modules
    outside the two source files ([stonesoup.types.state],
    [stonesoup.models]); they are modelled by the interface the
    specification gives them and the predictor uses. *)

Inductive state_class :=
| InformationState
| InformationStateUpdate
| InformationStatePrediction
| GaussianState
| GaussianStateUpdate
| GaussianStatePrediction
| OtherState (name : string).

#[global] Instance state_class_eq_dec : EqDecision state_class.
Proof. solve_decision. Defined.

(** The direct base class among the state classes. *)
Definition base_class (c : state_class) : option state_class :=
  match c with
  | InformationStateUpdate | InformationStatePrediction => Some InformationState
  | GaussianStateUpdate | GaussianStatePrediction => Some GaussianState
  | InformationState | GaussianState | OtherState _ => None
  end.

Definition kwargs : Type := list (string * Z).

Section Objects.

Context {M : Type -> Type} {array : Type}.

(** Modelled from the spec: the estimate objects, whose classes are not
    part of the sources.  An information-form estimate holds
    [state_vector], [info_matrix] and [timestamp], a covariance-form one
    [state_vector], [covar] and [timestamp].  An attribute the object
    does not have is [None] here; reading it raises [AttributeError]. *)
Record State := mkState {
  cls : state_class;
  state_vector : array;
  info_matrix : option array;
  covar : option array;
  timestamp : option Z
}.

#[global] Instance State_eq_dec `{EqDecision array} : EqDecision State.
Proof. solve_decision. Defined.

Definition isinstance (o : State) (c : state_class) : bool :=
  bool_decide (cls o = c \/ base_class (cls o) = Some c).

(** Modelled from the spec: [LinearGaussianTransitionModel], whose class
    is not part of the sources.  It supplies the methods [matrix] and
    [covar], called with the keyword arguments [prior] and
    [time_interval] the predictor passes and the caller's further
    keyword arguments, and the attributes [ndim_state] and [ndim] the
    predictor reads. *)
Record TransitionModel := mkTransitionModel {
  ndim_state : nat;
  ndim : nat;
  tm_matrix : option State -> option Z -> kwargs -> M array;
  tm_covar : option Z -> kwargs -> M array
}.

(** Modelled from the spec: [LinearControlModel], whose class is not part
    of the sources, with the fields of the constructor call
    [LinearControlModel(ndim_state, mapping, control_vector,
    control_matrix, control_noise)] of the predictor. *)
Record LinearControlModel := mkLinearControlModel {
  cm_ndim_state : nat;
  mapping : list nat;
  control_vector : array;
  control_matrix : array;
  control_noise : array
}.

Record InfoFilterPredictor := mkInfoFilterPredictor {
  transition_model : TransitionModel;
  control_model : LinearControlModel
}.

End Objects.

Arguments State : clear implicits.
Arguments TransitionModel : clear implicits.
Arguments LinearControlModel : clear implicits.
Arguments InfoFilterPredictor : clear implicits.

(** ** stonesoup/predictor/information.py *)

Section Predictor.

Context {M : Type -> Type} `{!MRet M, !MBind M, !MThrow exn M}.
Context {array : Type} `{!Numpy M array}.

Abbreviation State' := (State array).
Abbreviation TransitionModel' := (TransitionModel M array).
Abbreviation LinearControlModel' := (LinearControlModel array).
Abbreviation InfoFilterPredictor' := (InfoFilterPredictor M array).

(** Attribute reads *)
Definition getattr (name : State' -> option array) (o : State') : M array :=
  match name o with
  | Some a => mret a
  | None => mthrow AttributeError
  end.

(** Modelled from the spec: the method [matrix()] of the control model,
    which "supplies a control matrix B"; the class is not part of the
    sources. *)
Definition cm_matrix (cm : LinearControlModel') : M array :=
  mret (control_matrix cm).

(** Modelled from the spec: the method [control_input()] of the control
    model, which supplies "a control input vector (n-by-1, possibly the
    zero vector)": the vector the model was built with.  The class is not
    part of the sources; a control model that returns the control matrix
    times this vector agrees with it when the vector is zero. *)
Definition control_input (cm : LinearControlModel') : M array :=
  mret (control_vector cm).

(** Modelled from the spec: the construction of an object with declared
    properties ([super().__init__] of [Base]), which "fails with a
    ConfigurationError if no transition model is supplied"; the base class
    is not part of the sources.  The control model defaults to [None]. *)
Definition Base_init (transition_model : option TransitionModel')
    (control_model : option LinearControlModel')
    : M (TransitionModel' * option LinearControlModel') :=
  match transition_model with
  | Some tm => mret (tm, control_model)
  | None => mthrow ConfigurationError
  end.

(** [InfoFilterPredictor.__init__] *)
Definition InfoFilterPredictor_init (transition_model : option TransitionModel')
    (control_model : option LinearControlModel') : M InfoFilterPredictor' :=
  '(tm, cm) ← Base_init transition_model control_model;
  match cm with
  | None =>
      let ndims := ndim_state tm in
      z1 ← np_zeros ndims 1;
      z2 ← np_zeros ndims ndims;
      z3 ← np_zeros ndims ndims;
      mret (mkInfoFilterPredictor tm (mkLinearControlModel ndims [] z1 z2 z3))
  | Some cm => mret (mkInfoFilterPredictor tm cm)
  end.

Section Methods.

Variable self : InfoFilterPredictor'.

Definition _noise_transition_matrix : M array :=
  np_identity (ndim_state (transition_model self)).

Definition _transition_matrix (prior : State') (time_interval : option Z)
    (kw : kwargs) : M array :=
  tm_matrix (transition_model self) (Some prior) time_interval kw.

Definition _transition_function (prior : State') (time_interval : option Z)
    (kw : kwargs) : M array :=
  F ← tm_matrix (transition_model self) None time_interval kw;
  np_matmul F (state_vector prior).

Definition _control_matrix : M array := cm_matrix (control_model self).

Definition _predict_over_interval (prior : State') (timestamp' : option Z)
    : option Z :=
  match timestamp', timestamp prior with
  | Some t, Some t0 => Some (t - t0)%Z
  | _, _ => None
  end.

(** A call [f(time_interval=..., **kwargs)]: Python raises [TypeError]
    when [kwargs] holds the key [time_interval] as well. *)
Definition pass_time_interval (kw : kwargs) : M unit :=
  if bool_decide ("time_interval"%string ∈ kw.*1) then mthrow TypeError else mret tt.

Definition is_information (prior : State') : bool :=
  isinstance prior InformationStateUpdate
  || isinstance prior InformationStatePrediction
  || isinstance prior InformationState.

(** The body of [predict] (the method is wrapped by [lru_cache], see
    [predict_cached]).  [print(prior)] writes to the standard output
    only and is left out.  [InformationStatePrediction(y_pred, Y_pred,
    timestamp=timestamp)] builds the object that holds its arguments. *)
Definition predict (prior : State') (timestamp' : option Z) (kw : kwargs)
    : M State' :=
  let predict_over_interval := _predict_over_interval prior timestamp' in
  (* x_pred *)
  _ ← pass_time_interval kw;
  t ← _transition_function prior predict_over_interval kw;
  u ← control_input (control_model self);
  x_pred ← np_add t u;
  transition_matrix ← _transition_matrix prior predict_over_interval kw;
  transition_covar ← tm_covar (transition_model self) predict_over_interval kw;
  control_matrix' ← _control_matrix;
  let control_noise' := control_noise (control_model self) in
  (* p_pred *)
  P ← (if is_information prior then getattr info_matrix prior
       else getattr covar prior);
  FP ← np_matmul transition_matrix P;
  FT ← np_T transition_matrix;
  FPF ← np_matmul FP FT;
  FPFQ ← np_add FPF transition_covar;
  BQ ← np_matmul control_matrix' control_noise';
  BT ← np_T control_matrix';
  BQB ← np_matmul BQ BT;
  p_pred ← np_add FPFQ BQB;
  let ndims := ndim (transition_model self) in
  G ← _noise_transition_matrix;
  let F := transition_matrix in
  let Q := transition_covar in
  Y ← (if is_information prior then getattr info_matrix prior
       else getattr covar prior);
  (* M = inv(F.T) @ Y @ inv(F) *)
  FT' ← np_T transition_matrix;
  iFT ← np_inv FT';
  iFTY ← np_matmul iFT Y;
  iF ← np_inv transition_matrix;
  M' ← np_matmul iFTY iF;
  (* Sigma = G @ M @ G + inv(Q) *)
  GM ← np_matmul G M';
  GMG ← np_matmul GM G;
  iQ ← np_inv transition_covar;
  Sigma ← np_add GMG iQ;
  (* Omega = M @ G @ inv(Sigma) *)
  MG ← np_matmul M' G;
  iSigma ← np_inv Sigma;
  Omega ← np_matmul MG iSigma;
  (* Y_pred = M - Omega @ Sigma @ Omega.T *)
  OS ← np_matmul Omega Sigma;
  OT ← np_T Omega;
  OSO ← np_matmul OS OT;
  Y_pred ← np_sub M' OSO;
  let y := state_vector prior in
  (* y_pred *)
  J ← np_ones ndims ndims;
  GT ← np_T G;
  OG ← np_matmul Omega GT;
  JOG ← np_sub J OG;
  FT'' ← np_T F;
  iFT' ← np_inv FT'';
  K ← np_matmul JOG iFT';
  Ky ← np_matmul K y;
  u' ← control_input (control_model self);
  Yu ← np_matmul Y u';
  y_pred ← np_add Ky Yu;
  mret (mkState InformationStatePrediction y_pred (Some Y_pred) None timestamp').

End Methods.

End Predictor.

(** ** The prediction equations as the specification words them

    [Y] is the second-moment term, [iFT], [iF], [iQ] and [iSigma] the
    inverses of [transpose F], [F], [Q] and [Sigma], [G] the noise
    transition matrix, [y] the prior's vector and [u] the control input. *)

Module Spec.

Definition M (iFT Y iF : ndarray) : ndarray := mmul (mmul iFT Y) iF.

Definition Sigma (G M iQ : ndarray) : ndarray := madd (mmul (mmul G M) G) iQ.

Definition Omega (G M iSigma : ndarray) : ndarray := mmul (mmul M G) iSigma.

Definition Y_pred (M Omega Sigma : ndarray) : ndarray :=
  msub M (mmul (mmul Omega Sigma) (transpose Omega)).

(** [y_pred = (I - Omega G^T) inverse(F^T) y + Y u], [I] the n-by-n
    identity. *)
Definition y_pred (n : nat) (Omega G iFT y Y u : ndarray) : ndarray :=
  madd (mmul (mmul (msub (identity n) (mmul Omega (transpose G))) iFT) y)
       (mmul Y u).

(** The second-moment term of a prior: its information matrix when it is
    in information form, its covariance otherwise. *)
Definition second_moment {array} (prior : State array) : option array :=
  match cls prior with
  | InformationState | InformationStateUpdate | InformationStatePrediction =>
      info_matrix prior
  | GaussianState | GaussianStateUpdate | GaussianStatePrediction | OtherState _ =>
      covar prior
  end.

(** The zero-effect control model of dimension [n]: all-zero control
    matrix, zero control input, all-zero control noise. *)
Definition zero_effect (n : nat) : LinearControlModel ndarray :=
  mkLinearControlModel n [] (zeros n 1) (zeros n n) (zeros n n).

(** The shapes of the arrays [predict] works with, for state dimension
    [n]: the two transition matrices, the process noise, the second
    moment, the prior's vector, and the control vector, matrix and
    noise. *)
Definition well_shaped (n : nat) (F1 F Q Y y u B Qc : ndarray) : Prop :=
  (nrows F1 = n /\ ncols F1 = n)
  /\ (nrows F = n /\ ncols F = n)
  /\ (nrows Q = n /\ ncols Q = n)
  /\ (nrows Y = n /\ ncols Y = n)
  /\ (nrows y = n /\ ncols y = 1)
  /\ (nrows u = n /\ ncols u = 1)
  /\ nrows B = n
  /\ (nrows Qc = ncols B /\ ncols Qc = ncols B).

(** A square array with no left inverse. *)
Definition singular (A : ndarray) : Prop :=
  nrows A = ncols A
  /\ forall B, ncols B = nrows A -> mmul B A <> identity (nrows A).

End Spec.

(** ** [functools.lru_cache]

    The cache of a decorated function: its entries, most recently used
    first, and the counters reported by [cache_info()].  A hit moves the
    entry to the front; a miss calls the function, stores its result at
    the front and drops the least recently used entry when the cache is
    full.  A call that raises stores nothing. *)

Module functools.

Section LruCache.

Context {K V : Type} `{!EqDecision K}.

Record cache := mkCache {
  entries : list (K * V);
  hits : nat;
  misses : nat
}.

Definition empty : cache := mkCache [] 0 0.

Fixpoint assoc (k : K) (l : list (K * V)) : option V :=
  match l with
  | [] => None
  | (k', v) :: l' => if decide (k' = k) then Some v else assoc k l'
  end.

Fixpoint remove (k : K) (l : list (K * V)) : list (K * V) :=
  match l with
  | [] => []
  | (k', v) :: l' => if decide (k' = k) then remove k l' else (k', v) :: remove k l'
  end.

(** The cache after a hit on the entry [(k, v)]. *)
Definition hit (k : K) (v : V) (c : cache) : cache :=
  mkCache ((k, v) :: remove k (entries c)) (S (hits c)) (misses c).

(** The cache after a miss on [k], the function having returned or
    raised. *)
Definition miss (maxsize : nat) (k : K) (r : result V) (c : cache) : cache :=
  match r with
  | Ok v => mkCache (take maxsize ((k, v) :: entries c)) (hits c) (S (misses c))
  | Raise e => mkCache (entries c) (hits c) (S (misses c))
  end.

(** A call of the decorated function. *)
Definition call (maxsize : nat) (f : K -> result V) (k : K) (c : cache)
    : result V * cache :=
  match assoc k (entries c) with
  | Some v => (Ok v, hit k v c)
  | None => (f k, miss maxsize k (f k) c)
  end.

(** The same, for a function that works on a store. *)
Definition call_st {S : Type} (maxsize : nat) (f : K -> S -> result V * S)
    (k : K) (c : cache) (s : S) : (result V * cache) * S :=
  match assoc k (entries c) with
  | Some v => ((Ok v, hit k v c), s)
  | None => let '(r, s') := f k s in ((r, miss maxsize k r c), s')
  end.

(** The entry of [k] is among the first [S j] entries and holds [v]. *)
Definition cached_within (k : K) (v : V) (j : nat) (c : cache) : Prop :=
  exists pre post,
    entries c = pre ++ (k, v) :: post /\ assoc k pre = None /\ length pre <= j.

(** Every entry holds the result of the function at its key. *)
Definition consistent (f : K -> result V) (c : cache) : Prop :=
  forall k v, assoc k (entries c) = Some v -> f k = Ok v.

End LruCache.

Arguments cache : clear implicits.

End functools.

(** ** The decorated method [predict]

    [@lru_cache()] keeps the default [maxsize] of 128.  The key of a call
    is made of all its arguments, [self] included; predictor objects are
    told apart by their identity. *)

Record call {array : Type} := mkCall {
  call_self : nat;
  call_prior : State array;
  call_timestamp : option Z;
  call_kwargs : kwargs
}.
Arguments call : clear implicits.
Arguments mkCall {array} call_self call_prior call_timestamp call_kwargs.

#[global] Instance call_eq_dec `{EqDecision array} : EqDecision (call array).
Proof. solve_decision. Defined.

Definition maxsize : nat := 128.

Section Cached.

Context {M : Type -> Type} `{!MRet M, !MBind M, !MThrow exn M}.
Context {array : Type} `{!Numpy M array}.

(** The predictor objects, by identity. *)
Variable instances : nat -> InfoFilterPredictor M array.

Definition predict_body (c : call array) : M (State array) :=
  predict (instances (call_self c)) (call_prior c) (call_timestamp c) (call_kwargs c).

End Cached.

Section CachedValues.

Variable instances : nat -> InfoFilterPredictor result ndarray.

Abbreviation predict_cache := (functools.cache (call ndarray) (State ndarray)).

Definition predict_cached (c : call ndarray) (cache : predict_cache)
    : result (State ndarray) * predict_cache :=
  functools.call maxsize (predict_body instances) c cache.

(** The cache after a sequence of calls. *)
Definition after_calls (cs : list (call ndarray)) (cache : predict_cache) : predict_cache :=
  foldl (fun cache c => snd (predict_cached c cache)) cache cs.

End CachedValues.

(** ** stonesoup/types/particle.py

    Particles are objects of a store, named by their address; the
    attribute [parent] holds [None] or the address of another particle. *)

Module ParticleTypes.

Inductive particle_class := Particle | MultiModelParticle.

(** The argument [state_vector]: [None], a [StateVector], or some other
    sequence of numbers. *)
Inductive state_vector_arg :=
| PyNone
| IsStateVector (v : list Qc)
| Sequence (v : list Qc).

Record object := mkObject {
  class : particle_class;
  state_vector : option (list Qc);
  weight : Qc;
  dynamic_model : option Z;
  parent : option nat
}.

Abbreviation store := (list object).

(** The object with its attribute [parent] set to [None]. *)
Definition clear_parent (o : object) : object :=
  mkObject (class o) (state_vector o) (weight o) (dynamic_model o) None.

(** The truth value of the argument [parent]: a particle object is true
    (the classes define neither [__bool__] nor [__len__]), [None] is
    false. *)
Definition truth (parent : option nat) : bool :=
  match parent with
  | Some _ => true
  | None => false
  end.

(** [parent.parent = None], [parent] a reference to an object. *)
Definition setattr_parent_None (parent : option nat) (st : store) : store :=
  match parent with
  | Some p => alter clear_parent p st
  | None => st
  end.

(** [StateVector(state_vector)] *)
Definition StateVector (v : list Qc) : list Qc := v.

Definition convert (state_vector : state_vector_arg) : option (list Qc) :=
  match state_vector with
  | PyNone => None
  | IsStateVector v => Some v
  | Sequence v => Some (StateVector v)
  end.

(** [Particle.__init__]: returns the address of the new object. *)
Definition Particle_init (state_vector : state_vector_arg) (weight : Qc)
    (parent : option nat) (st : store) : nat * store :=
  let st1 := if truth parent then setattr_parent_None parent st else st in
  let state_vector' := convert state_vector in
  (length st1, st1 ++ [mkObject Particle state_vector' weight None parent]).

(** [MultiModelParticle.__init__] *)
Definition MultiModelParticle_init (state_vector : state_vector_arg) (weight : Qc)
    (dynamic_model : Z) (parent : option nat) (st : store) : nat * store :=
  let st1 := if truth parent then setattr_parent_None parent st else st in
  let state_vector' := convert state_vector in
  (length st1,
   st1 ++ [mkObject MultiModelParticle state_vector' weight (Some dynamic_model) parent]).

(** [ndim] *)
Definition ndim (o : object) : option nat := length <$> state_vector o.

End ParticleTypes.

(** ** Objects in the store *)

Module HeapObjects.

Import Heap.

(** The buffers a state object refers to. *)
Definition storage (s : State ref) : list nat :=
  buf (state_vector s)
  :: (match info_matrix s with Some a => [buf a] | None => [] end
      ++ match covar s with Some a => [buf a] | None => [] end).

(** The buffers the models of a predictor hold. *)
Definition model_storage (p : InfoFilterPredictor heap_m ref) : list nat :=
  [buf (control_vector (control_model p));
   buf (control_matrix (control_model p));
   buf (control_noise (control_model p))].

(** The transition model's methods only allocate: they build their
    matrices without writing into an existing buffer. *)
Definition model_allocates_only (tm : TransitionModel heap_m ref) : Prop :=
  (forall prior dt kw, allocates_only (tm_matrix tm prior dt kw))
  /\ (forall dt kw, allocates_only (tm_covar tm dt kw)).

Definition live (h : heap) (bs : list nat) : Prop := Forall (fun b => b < length h) bs.

Section CachedStore.

Variable instances : nat -> InfoFilterPredictor heap_m ref.

Abbreviation store_cache := (functools.cache (call ref) (State ref)).

(** The decorated method, on a store. *)
Definition predict_cached_st (c : call ref) (cache : store_cache) (h : heap)
    : (result (State ref) * store_cache) * heap :=
  functools.call_st maxsize (predict_body instances) c cache h.

(** [r] is an estimate for the call [c]: an [InformationStatePrediction]
    with the timestamp of the call, none of whose buffers is a buffer of
    the prior or of the models. *)
Definition estimate_of (c : call ref) (r : State ref) : Prop :=
  cls r = InformationStatePrediction
  /\ timestamp r = call_timestamp c
  /\ forall b, b ∈ storage r ->
       (b ∉ storage (call_prior c)) /\ (b ∉ model_storage (instances (call_self c))).

(** Every entry of the cache is an estimate for its call, in the store. *)
Definition cache_ok (h : heap) (cache : store_cache) : Prop :=
  forall c r, (c, r) ∈ functools.entries cache -> estimate_of c r /\ live h (storage r).

End CachedStore.

End HeapObjects.

(** ** Sample inputs *)

Module Samples.

(** A constant-velocity model over one time step. *)
Definition cvF : ndarray := of_rows [[qz 1; qz 1]; [qz 0; qz 1]].
Definition cvQ : ndarray := of_rows [[q 1 10; qz 0]; [qz 0; q 1 10]].
Definition cv_model : TransitionModel result ndarray :=
  mkTransitionModel 2 2 (fun _ _ _ => Ok cvF) (fun _ _ => Ok cvQ).
Definition cv_predictor : InfoFilterPredictor result ndarray :=
  mkInfoFilterPredictor cv_model (Spec.zero_effect 2).

(** Models whose matrices do not depend on the arguments. *)
Definition constant_model (n : nat) (F Q : ndarray) : TransitionModel result ndarray :=
  mkTransitionModel n n (fun _ _ _ => Ok F) (fun _ _ => Ok Q).
Definition constant_predictor (n : nat) (F Q : ndarray) : InfoFilterPredictor result ndarray :=
  mkInfoFilterPredictor (constant_model n F Q) (Spec.zero_effect n).

Definition column (v : list Qc) : ndarray := of_rows (map (fun x => [x]) v).

Definition information_state (y : list Qc) (Y : ndarray) (t : Z) : State ndarray :=
  mkState InformationState (column y) (Some Y) None (Some t).
Definition gaussian_state (x : list Qc) (P : ndarray) (t : Z) : State ndarray :=
  mkState GaussianState (column x) None (Some P) (Some t).

Definition prior10 : State ndarray := information_state [qz 1; qz 0] (identity 2) 0.

(** The prediction of [prior10] over one time step. *)
Definition cv_prediction_result : State ndarray :=
  mkState InformationStatePrediction
    (column [q (-21) 131; q 31 131])
    (Some (of_rows [[q 110 131; q (-100) 131]; [q (-100) 131; q 210 131]]))
    None (Some 1%Z).

(** Calls of [predict] on the constant-velocity predictor: one at
    timestamp 1, and 128 more at the timestamps 2 to 129. *)
Definition cv_instances (id : nat) : InfoFilterPredictor result ndarray := cv_predictor.
Definition cv_call (t : Z) : call ndarray := mkCall 0 prior10 (Some t) [].
Definition cv_calls : list (call ndarray) := map (fun t => cv_call (Z.of_nat t)) (seq 2 128).

(** The constant-velocity predictor and the prior in a store: the
    buffers 0 and 1 hold the prior's vector and information matrix, the
    buffers 2 to 4 the arrays of the zero-effect control model. *)
Definition cv_heap : Heap.heap :=
  [column [qz 1; qz 0]; identity 2; zeros 2 1; zeros 2 2; zeros 2 2].
Definition cv_heap_model : TransitionModel Heap.heap_m Heap.ref :=
  mkTransitionModel 2 2 (fun _ _ _ => Heap.alloc cvF) (fun _ _ => Heap.alloc cvQ).
Definition cv_heap_predictor : InfoFilterPredictor Heap.heap_m Heap.ref :=
  mkInfoFilterPredictor cv_heap_model
    (mkLinearControlModel 2 [] (Heap.Ref 2 false) (Heap.Ref 3 false) (Heap.Ref 4 false)).
Definition cv_heap_instances (id : nat) : InfoFilterPredictor Heap.heap_m Heap.ref :=
  cv_heap_predictor.
Definition cv_heap_prior : State Heap.ref :=
  mkState InformationState (Heap.Ref 0 false) (Some (Heap.Ref 1 false)) None (Some 0%Z).

(** A store of two particles, the second a child of the first. *)
Definition two_particles : ParticleTypes.store :=
  [ParticleTypes.mkObject ParticleTypes.Particle (Some [qz 0]) (q 1 2) None None;
   ParticleTypes.mkObject ParticleTypes.Particle (Some [qz 1]) (q 1 2) None (Some 0)].

(** A transition matrix with a zero row. *)
Definition zero_row_F : ndarray := of_rows [[qz 1; qz 1]; [qz 0; qz 0]].

End Samples.


(** ** numpy with [inv] left open

    [numpy.linalg.inv] runs LAPACK's LU factorisation in float64.  It
    raises [LinAlgError] when the array is not square or a pivot is
    exactly zero; otherwise it returns an array of the shape of its
    argument, which for a singular argument whose pivots do not round to
    zero, or for a badly scaled one, need not be an inverse.  The exact
    [Pure.inv] is one such function.  What must hold of the running code
    whatever [inv] computes is stated with [inv] as a parameter. *)

Definition numpy_with (inv : ndarray -> result ndarray) : Numpy result ndarray := {|
  np_matmul := Pure.matmul;
  np_add := Pure.elementwise Qcplus;
  np_sub := Pure.elementwise Qcminus;
  np_T := fun A => Ok (transpose A);
  np_inv := inv;
  np_zeros := fun r c => Ok (zeros r c);
  np_ones := fun r c => Ok (ones r c);
  np_identity := fun n => Ok (identity n)
|}.

(** What is used of [inv]: the only exception it raises is
    [LinAlgError], and what it returns has the shape of its argument. *)
Definition inv_interface (inv : ndarray -> result ndarray) : Prop :=
  (forall A e, inv A = Raise e -> e = LinAlgError)
  /\ (forall A B, inv A = Ok B -> nrows B = nrows A /\ ncols B = ncols A).

(** [predict], run with the given [inv]. *)
Definition predict_with (inv : ndarray -> result ndarray)
    (self : InfoFilterPredictor result ndarray) (prior : State ndarray)
    (timestamp' : option Z) (kw : kwargs) : result (State ndarray) :=
  @predict result _ _ _ ndarray (numpy_with inv) self prior timestamp' kw.

(** ** Stores built by the particle constructors *)

Module ParticleStores.

Import ParticleTypes.

(** The argument [parent] of a constructor call: [None], or the address
    of an object of the store. *)
Definition parent_arg_ok (parent : option nat) (st : store) : Prop :=
  match parent with
  | Some p => p < length st
  | None => True
  end.

(** The stores reached from the empty one by constructor calls. *)
Inductive constructed : store -> Prop :=
| constructed_empty : constructed []
| constructed_Particle st state_vector weight parent :
    constructed st -> parent_arg_ok parent st ->
    constructed (snd (Particle_init state_vector weight parent st))
| constructed_MultiModelParticle st state_vector weight dynamic_model parent :
    constructed st -> parent_arg_ok parent st ->
    constructed (snd (MultiModelParticle_init state_vector weight dynamic_model parent st)).

(** Every parent link of the store leads to an older object that has no
    parent itself. *)
Definition shallow (st : store) : Prop :=
  forall l o p, st !! l = Some o -> parent o = Some p ->
    p < l /\ exists po, st !! p = Some po /\ parent po = None.

End ParticleStores.

(** ** Invariant of the cache

    The entries are at most [maxsize] and no key occurs twice; the two
    counters count the calls made. *)
Definition lru_bounded {K V : Type} (maxsize calls : nat) (c : functools.cache K V) : Prop :=
  length (functools.entries c) <= maxsize
  /\ NoDup (functools.entries c).*1
  /\ functools.hits c + functools.misses c = calls.

(** ** Further sample data *)

Module MoreSamples.

Import Samples.

(** A prior that holds no information, and its prediction by the
    constant-velocity predictor. *)
Definition blank_prior : State ndarray :=
  information_state [qz 1; qz 0] (zeros 2 2) 0.
Definition blank_prediction : State ndarray :=
  mkState InformationStatePrediction (column [qz 0; qz 0]) (Some (zeros 2 2))
    None (Some 1%Z).

(** The Gaussian state with the vector and the second moment of
    [prior10]. *)
Definition gaussian10 : State ndarray :=
  gaussian_state [qz 1; qz 0] (identity 2) 0.

(** A control model with unit control matrix and noise, and one whose
    3-by-3 noise does not fit its 2-by-2 control matrix. *)
Definition unit_control : LinearControlModel ndarray :=
  mkLinearControlModel 2 [] (zeros 2 1) (identity 2) (identity 2).
Definition mismatched_control : LinearControlModel ndarray :=
  mkLinearControlModel 2 [] (zeros 2 1) (zeros 2 2) (zeros 3 3).

(** A transition model whose [ndim] is not its [ndim_state]. *)
Definition odd_model : TransitionModel result ndarray :=
  mkTransitionModel 2 3 (fun _ _ _ => Ok cvF) (fun _ _ => Ok cvQ).

(** A state that has a vector only. *)
Definition plain_state : State ndarray :=
  mkState (OtherState "State") (column [qz 1; qz 0]) None None (Some 0%Z).

(** Predictors whose transition matrix is singular. *)
Definition singular_instances (id : nat) : InfoFilterPredictor result ndarray :=
  constant_predictor 2 zero_row_F cvQ.

End MoreSamples.

(** * Properties *)

Example inverse_cv :
  inverse (of_rows [[qz 1; qz 1]; [qz 0; qz 1]])
  = Some (of_rows [[qz 1; qz (-1)]; [qz 0; qz 1]]).
Proof. vm_decide. Qed.

Example inverse_swap :
  inverse (of_rows [[qz 0; qz 2]; [qz 4; qz 0]])
  = Some (of_rows [[qz 0; q 1 4]; [q 1 2; qz 0]]).
Proof. vm_decide. Qed.

Example inverse_zero_row :
  inverse (of_rows [[qz 1; qz 1]; [qz 0; qz 0]]) = None.
Proof. vm_decide. Qed.

(** ** Linear algebra on rows *)

Section RowAlgebra.

Local Open Scope Qc_scope.

Lemma nth_scale c x j : nth j (scale c x) 0 = c * nth j x 0.
Proof.
  unfold scale. revert j. induction x as [|a x IH]; intros [|j]; simpl; try ring.
  apply IH.
Qed.

Lemma nth_axpy c x y j :
  length x = length y -> nth j (axpy c x y) 0 = nth j y 0 - c * nth j x 0.
Proof.
  unfold axpy. revert y j.
  induction x as [|a x IH]; intros [|b y] j Hl; simpl in Hl; try discriminate.
  - destruct j; simpl; ring.
  - destruct j; simpl; [ring|]. apply IH. congruence.
Qed.

Lemma length_scale c x : length (scale c x) = length x.
Proof. apply length_map. Qed.

Lemma length_axpy c x y : length x = length y -> length (axpy c x y) = length y.
Proof.
  unfold axpy. intros H. rewrite length_zip_with. lia.
Qed.

Lemma dot_nil_r u : dot u [] = 0.
Proof. destruct u; reflexivity. Qed.

Lemma dot_scale c x v : dot (scale c x) v = c * dot x v.
Proof.
  unfold dot, scale. revert v.
  induction x as [|a x IH]; intros [|b v]; simpl; try ring.
  rewrite IH. ring.
Qed.

Lemma dot_axpy c x y v :
  length x = length y -> dot (axpy c x y) v = dot y v - c * dot x v.
Proof.
  unfold dot, axpy. revert y v.
  induction x as [|a x IH]; intros [|b y] v Hl; simpl in Hl; try discriminate.
  - simpl. ring.
  - destruct v as [|d v]; simpl; [ring|].
    rewrite IH by congruence. ring.
Qed.

Lemma length_vecmat e A : length (vecmat e A) = ncols A.
Proof. unfold vecmat. by rewrite length_map, length_seq. Qed.

Lemma list_nth_ext (x y : row) :
  length x = length y -> (forall j, (j < length x)%nat -> nth j x 0 = nth j y 0) -> x = y.
Proof.
  revert y. induction x as [|a x IH]; intros [|b y] Hl H; simpl in Hl; try discriminate.
  - reflexivity.
  - f_equal.
    + apply (H O). simpl. lia.
    + apply IH; [congruence|]. intros j Hj. apply (H (S j)). simpl. lia.
Qed.

Lemma nth_map_seq (f : nat -> Qc) n j :
  (j < n)%nat -> nth j (map f (seq 0 n)) 0 = f j.
Proof.
  intros Hj. rewrite (nth_indep _ 0 (f 0%nat)) by (rewrite length_map, length_seq; lia).
  rewrite map_nth. by rewrite seq_nth.
Qed.

Lemma nth_vecmat e A j :
  (j < ncols A)%nat -> nth j (vecmat e A) 0 = dot e (col_of A j).
Proof. intros Hj. unfold vecmat. by rewrite nth_map_seq. Qed.

Lemma vecmat_scale c e A : vecmat (scale c e) A = scale c (vecmat e A).
Proof.
  apply list_nth_ext.
  - by rewrite length_scale, !length_vecmat.
  - intros j Hj. rewrite length_vecmat in Hj.
    rewrite nth_scale, !nth_vecmat by done. apply dot_scale.
Qed.

Lemma vecmat_axpy c x y A :
  length x = length y -> vecmat (axpy c x y) A = axpy c (vecmat x A) (vecmat y A).
Proof.
  intros Hl. apply list_nth_ext.
  - rewrite length_axpy by (by rewrite !length_vecmat). by rewrite !length_vecmat.
  - intros j Hj. rewrite length_vecmat in Hj.
    rewrite nth_axpy by (by rewrite !length_vecmat).
    rewrite !nth_vecmat by done. by apply dot_axpy.
Qed.

Lemma map_nth_seq (x : row) : map (fun k => nth k x 0) (seq 0 (length x)) = x.
Proof.
  apply list_nth_ext.
  - by rewrite length_map, length_seq.
  - intros j Hj. rewrite length_map, length_seq in Hj. by rewrite nth_map_seq.
Qed.

Lemma get_tabulate r c f i j :
  (i < r)%nat -> (j < c)%nat -> get (tabulate r c f) i j = f i j.
Proof.
  intros Hi Hj. unfold get, tabulate. simpl.
  rewrite (nth_indep _ [] (map (fun j => f 0%nat j) (seq 0 c)))
    by (rewrite length_map, length_seq; lia).
  rewrite (map_nth (fun i => map (fun j => f i j) (seq 0 c))).
  rewrite seq_nth by done. simpl. by rewrite nth_map_seq.
Qed.

Lemma tabulate_ext r c f g :
  (forall i j, (i < r)%nat -> (j < c)%nat -> f i j = g i j) -> tabulate r c f = tabulate r c g.
Proof.
  intros H. unfold tabulate. f_equal.
  apply map_ext_in. intros i Hi. apply in_seq in Hi.
  apply map_ext_in. intros j Hj. apply in_seq in Hj.
  apply H; lia.
Qed.

(** The dot product with a unit vector picks one entry. *)
Lemma sum_unit (g : nat -> Qc) i s n :
  sum (map (fun k => (if decide (i = k) then 1 else 0) * g k) (seq s n))
  = if decide (s <= i < s + n)%nat then g i else 0.
Proof.
  revert s. induction n as [|n IH]; intros s; simpl.
  - case_decide; [lia|done].
  - rewrite IH. repeat case_decide; subst; try lia; ring.
Qed.

Lemma zip_with_map_seq (f g : nat -> Qc) s n :
  zip_with Qcmult (map f (seq s n)) (map g (seq s n)) = map (fun k => f k * g k) (seq s n).
Proof. revert s. induction n as [|n IH]; intros s; simpl; [done|]. by rewrite IH. Qed.

Lemma dot_unit A i j :
  (i < nrows A)%nat ->
  dot (row_of (identity (nrows A)) i) (col_of A j) = get A i j.
Proof.
  intros Hi. unfold dot, row_of, col_of. simpl.
  rewrite (map_ext_in _ (fun k => if decide (i = k) then 1 else 0)).
  2:{ intros k Hk. apply in_seq in Hk. unfold identity. rewrite get_tabulate by lia. done. }
  rewrite zip_with_map_seq, sum_unit. case_decide; [done|lia].
Qed.

End RowAlgebra.

(** ** Gauss-Jordan elimination returns a left inverse *)

Section GaussJordan.

Local Open Scope Qc_scope.

Variable A : ndarray.

Local Abbreviation row_ok := (row_ok A).

Lemma find_pivot_spec k todo p rest :
  find_pivot k todo = Some (p, rest) ->
  nth k (fst p) 0 <> 0 /\ todo ≡ₚ p :: rest.
Proof.
  revert p rest. induction todo as [|r todo IH]; intros p rest H; simpl in H; [done|].
  case_decide as Hz.
  - destruct (find_pivot k todo) as [[p0 rest0]|] eqn:E; [|done].
    injection H as <- <-. destruct (IH _ _ eq_refl) as [Hp Hperm].
    split; [done|]. rewrite Hperm. apply Permutation_swap.
  - injection H as <- <-. done.
Qed.

Lemma row_ok_normalise k p : row_ok p -> row_ok (normalise k p).
Proof.
  intros (Ha & He & Heq). unfold normalise, row_ok. cbn [fst snd].
  rewrite !length_scale. repeat split; try done.
  rewrite vecmat_scale. by rewrite <- Heq.
Qed.

Lemma row_ok_eliminate k p r : row_ok p -> row_ok r -> row_ok (eliminate k p r).
Proof.
  intros (Ha & He & Heq) (Ha' & He' & Heq'). unfold eliminate, row_ok. cbn [fst snd].
  rewrite !length_axpy by congruence. repeat split; try done.
  rewrite vecmat_axpy by congruence. by rewrite <- Heq, <- Heq'.
Qed.

Lemma normalise_pivot k p :
  nth k (fst p) 0 <> 0 -> cleared k p ->
  cleared k (normalise k p) /\ nth k (fst (normalise k p)) 0 = 1.
Proof.
  intros Hp Hc. unfold normalise. cbn [fst snd]. split.
  - intros j Hj. cbn [fst]. rewrite nth_scale. rewrite (Hc j) by done. ring.
  - rewrite nth_scale. by field.
Qed.

Lemma eliminate_nth k p r j :
  length (fst p) = length (fst r) ->
  nth j (fst (eliminate k p r)) 0 = nth j (fst r) 0 - nth k (fst r) 0 * nth j (fst p) 0.
Proof. intros Hl. unfold eliminate. cbn [fst snd]. by rewrite nth_axpy. Qed.

(** One step of the elimination keeps its invariant. *)
Lemma gauss_jordan_step k used todo p rest :
  gj_inv A k used todo ->
  find_pivot k todo = Some (p, rest) ->
  gj_inv A (S k) (map (eliminate k (normalise k p)) used ++ [normalise k p])
    (map (eliminate k (normalise k p)) rest).
Proof.
  intros (Hu & Ht & Hlen & Hred & Hcl) E.
  apply find_pivot_spec in E as [Hp Hperm].
  rewrite Hperm in Ht, Hcl.
  apply Forall_cons in Ht as [Hpok Hrest]. apply Forall_cons in Hcl as [Hpc Hrc].
  destruct (normalise_pivot k p Hp Hpc) as [Hc' H1].
  pose proof (row_ok_normalise k p Hpok) as Hok'.
  set (p' := normalise k p) in *.
  assert (Hlenp : forall r, row_ok r -> length (fst p') = length (fst r)).
  { intros r Hr. destruct Hok' as [-> _]. by destruct Hr as [-> _]. }
  unfold gj_inv. split_and!.
  - apply Forall_app. split.
    + apply Forall_map. eapply Forall_impl; [exact Hu|].
      intros r Hr. by apply row_ok_eliminate.
    + by apply Forall_singleton.
  - apply Forall_map. eapply Forall_impl; [exact Hrest|].
    intros r Hr. by apply row_ok_eliminate.
  - rewrite length_app, length_map. simpl. lia.
  - intros i r j Hi Hj.
    destruct (decide (i < k)%nat) as [Hik|Hik].
    + rewrite lookup_app_l in Hi by (rewrite length_map; lia).
      rewrite list_lookup_fmap in Hi.
      destruct (used !! i) as [r0|] eqn:E0; [|done]. injection Hi as <-.
      assert (row_ok r0) as Hr0.
      { exact (Forall_lookup_1 _ _ _ _ Hu E0). }
      rewrite eliminate_nth by (by apply Hlenp).
      destruct (decide (j = k)) as [->|Hjk].
      * rewrite H1. unfold delta. case_decide; [lia|]. ring.
      * rewrite (Hc' j) by lia. rewrite (Hred i r0 j E0) by lia. ring.
    + rewrite lookup_app_r in Hi by (rewrite length_map; lia).
      rewrite length_map in Hi.
      destruct (i - length used)%nat as [|m] eqn:Em; [|by destruct m].
      injection Hi as <-. assert (i = k) as -> by lia.
      destruct (decide (j = k)) as [->|Hjk].
      * rewrite H1. unfold delta. by case_decide.
      * rewrite (Hc' j) by lia. unfold delta. case_decide; [lia|done].
  - apply Forall_map, Forall_forall. intros r Hin.
    pose proof (proj1 (Forall_forall _ _) Hrest r Hin) as Hr.
    pose proof (proj1 (Forall_forall _ _) Hrc r Hin) as Hcr.
    intros j Hj. rewrite eliminate_nth by (by apply Hlenp).
    destruct (decide (j = k)) as [->|Hjk].
    + rewrite H1. ring.
    + rewrite (Hc' j), (Hcr j) by lia. ring.
Qed.

Lemma gauss_jordan_invariant steps : forall k used todo res,
  gj_inv A k used todo ->
  gauss_jordan steps k used todo = Some res ->
  Forall row_ok res /\ length res = (k + steps)%nat /\ reduced (k + steps) res.
Proof.
  induction steps as [|steps IH]; intros k used todo res Hinv H; simpl in H.
  - injection H as <-. rewrite Nat.add_0_r. by destruct Hinv as (? & ? & ? & ? & ?).
  - destruct (find_pivot k todo) as [[p rest]|] eqn:E; [|done].
    replace (k + S steps)%nat with (S k + steps)%nat by lia.
    apply (IH (S k) _ _ res (gauss_jordan_step _ _ _ _ _ Hinv E) H).
Qed.

Lemma row_ok_augment : nrows A = ncols A -> Forall row_ok (augment A).
Proof.
  intros Hsq. unfold augment. apply Forall_map, Forall_forall.
  intros i Hi. apply list_elem_of_In, in_seq in Hi.
  unfold Array.row_ok. cbn [fst snd]. repeat split.
  - unfold row_of. by rewrite length_map, length_seq.
  - unfold row_of. rewrite length_map, length_seq. simpl. done.
  - apply list_nth_ext.
    + unfold row_of. by rewrite length_vecmat, length_map, length_seq.
    + intros j Hj. unfold row_of in Hj. rewrite length_map, length_seq in Hj.
      rewrite nth_vecmat by done. rewrite dot_unit by lia.
      unfold row_of. by rewrite nth_map_seq.
Qed.

Lemma inverse_shape B :
  inverse A = Some B -> nrows A = ncols A /\ nrows B = nrows A /\ ncols B = nrows A.
Proof.
  unfold inverse. case_decide; [|done].
  destruct (gauss_jordan _ _ _ _); [|done]. intros [= <-]. done.
Qed.

Lemma gj_inv_augment : nrows A = ncols A -> gj_inv A 0 [] (augment A).
Proof.
  intros Hsq. unfold gj_inv. split_and!.
  - done.
  - by apply row_ok_augment.
  - done.
  - intros i r j Hi. done.
  - apply Forall_forall. intros r _ j Hj. lia.
Qed.

(** The array returned by [inverse] is a left inverse. *)
Lemma inverse_sound B : inverse A = Some B -> mmul B A = identity (nrows A).
Proof.
  intros H. destruct (inverse_shape _ H) as (Hsq & Hr & Hc).
  unfold inverse in H. case_decide; [|done].
  destruct (gauss_jordan _ _ _ _) as [res|] eqn:E; [|done]. injection H as <-.
  apply gauss_jordan_invariant in E as (Hok & Hlen & Hred); [|by apply gj_inv_augment].
  unfold mmul, identity. cbn [nrows ncols] in *. rewrite <- Hsq.
  apply tabulate_ext. intros i j Hi Hj.
  destruct (res !! i) as [r|] eqn:Ei.
  2:{ apply lookup_ge_None in Ei. simpl in Hlen. lia. }
  pose proof (Forall_lookup_1 _ _ _ _ Hok Ei) as (Ha & He & Heq).
  assert (row_of (NDArray (nrows A) (nrows A) (map snd res)) i = snd r) as ->.
  { unfold row_of, get. cbn [nrows ncols rows].
    rewrite (nth_lookup_Some _ _ _ (snd r)) by (by rewrite list_lookup_fmap, Ei).
    replace (nrows A) with (length (snd r)) by congruence. apply map_nth_seq. }
  rewrite <- nth_vecmat by lia. rewrite <- Heq.
  rewrite (Hred i r j Ei) by (simpl; lia). done.
Qed.

End GaussJordan.

(** ** Gauss-Jordan elimination finds the inverse when there is one *)

Section Sums.

Local Open Scope Qc_scope.

Lemma sum_zero {X} (l : list X) : sum (map (fun _ => 0) l) = 0.
Proof. induction l as [|x l IH]; simpl; [done|]. rewrite IH. ring. Qed.

Lemma sum_add {X} (f g : X -> Qc) l :
  sum (map (fun x => f x + g x) l) = sum (map f l) + sum (map g l).
Proof. induction l as [|x l IH]; simpl; [ring|]. rewrite IH. ring. Qed.

Lemma sum_scale_l {X} c (f : X -> Qc) l :
  sum (map (fun x => c * f x) l) = c * sum (map f l).
Proof. induction l as [|x l IH]; simpl; [ring|]. rewrite IH. ring. Qed.

Lemma sum_scale_r {X} c (f : X -> Qc) l :
  sum (map (fun x => f x * c) l) = sum (map f l) * c.
Proof. induction l as [|x l IH]; simpl; [ring|]. rewrite IH. ring. Qed.

Lemma sum_swap {X Y} (f : X -> Y -> Qc) l1 l2 :
  sum (map (fun i => sum (map (fun j => f i j) l2)) l1)
  = sum (map (fun j => sum (map (fun i => f i j) l1)) l2).
Proof.
  induction l1 as [|x l1 IH]; simpl.
  - by rewrite sum_zero.
  - rewrite IH. by rewrite <- sum_add.
Qed.

Lemma sum_ext_in {X} (f g : X -> Qc) l :
  (forall x, In x l -> f x = g x) -> sum (map f l) = sum (map g l).
Proof. intros H. f_equal. by apply map_ext_in. Qed.

Lemma dot_seq u v n :
  length u = n -> length v = n ->
  dot u v = sum (map (fun i => nth i u 0 * nth i v 0) (seq 0 n)).
Proof.
  intros Hu Hv. unfold dot.
  rewrite <- (map_nth_seq u) at 1. rewrite <- (map_nth_seq v) at 1.
  rewrite Hu, Hv. by rewrite zip_with_map_seq.
Qed.

Lemma dot_zero_r u w : (forall i, nth i w 0 = 0) -> dot u w = 0.
Proof.
  unfold dot. revert w. induction u as [|a u IH]; intros [|b w] H; simpl; try done.
  pose proof (H O) as Hb. simpl in Hb. rewrite Hb, IH; [ring|].
  intros i. apply (H (S i)).
Qed.

Lemma length_matvec A v : length (matvec A v) = nrows A.
Proof. unfold matvec. by rewrite length_map, length_seq. Qed.

Lemma length_row_of A i : length (row_of A i) = ncols A.
Proof. unfold row_of. by rewrite length_map, length_seq. Qed.

Lemma length_col_of A j : length (col_of A j) = nrows A.
Proof. unfold col_of. by rewrite length_map, length_seq. Qed.

(** [(e A) v = e (A v)] *)
Lemma dot_vecmat_assoc e A v :
  length e = nrows A -> length v = ncols A ->
  dot (vecmat e A) v = dot e (matvec A v).
Proof.
  intros He Hv.
  rewrite (dot_seq (vecmat e A) v (ncols A)) by (by rewrite ?length_vecmat).
  rewrite (dot_seq e (matvec A v) (nrows A)) by (by rewrite ?length_matvec).
  transitivity (sum (map (fun j => sum (map (fun i => nth i e 0 * get A i j * nth j v 0)
                                          (seq 0 (nrows A)))) (seq 0 (ncols A)))).
  - apply sum_ext_in. intros j Hj. apply in_seq in Hj.
    rewrite nth_vecmat by lia.
    rewrite (dot_seq e (col_of A j) (nrows A)) by (by rewrite ?length_col_of).
    rewrite <- sum_scale_r. apply sum_ext_in. intros i Hi. apply in_seq in Hi.
    unfold col_of. by rewrite nth_map_seq by lia.
  - rewrite sum_swap. apply sum_ext_in. intros i Hi. apply in_seq in Hi.
    unfold matvec. rewrite nth_map_seq by lia.
    rewrite (dot_seq (row_of A i) v (ncols A)) by (by rewrite ?length_row_of).
    rewrite <- sum_scale_l. apply sum_ext_in. intros j Hj. apply in_seq in Hj.
    unfold row_of. rewrite nth_map_seq by lia. ring.
Qed.

Lemma dot_unit_vec n i w :
  (i < n)%nat -> length w = n -> dot (row_of (identity n) i) w = nth i w 0.
Proof.
  intros Hi Hw.
  rewrite (dot_seq _ w n) by (by rewrite ?length_row_of).
  rewrite (sum_ext_in _ (fun k => (if decide (i = k) then 1 else 0) * nth k w 0)).
  - rewrite sum_unit. case_decide; [done|lia].
  - intros k Hk. apply in_seq in Hk. unfold row_of. simpl.
    rewrite nth_map_seq by lia. unfold identity. by rewrite get_tabulate by lia.
Qed.

End Sums.

Section GaussJordanComplete.

Local Open Scope Qc_scope.

Variable A : ndarray.
Hypothesis square : nrows A = ncols A.

Local Abbreviation n := (ncols A).
Local Abbreviation row_ok := (row_ok A).

Lemma find_pivot_None k todo :
  find_pivot k todo = None -> Forall (fun r => nth k (fst r) 0 = 0) todo.
Proof.
  induction todo as [|r todo IH]; simpl; [done|].
  case_decide as Hz; [|done].
  destruct (find_pivot k todo) as [[p rest]|]; [done|].
  intros _. constructor; [done|]. by apply IH.
Qed.

Lemma kernel_free_augment : kernel_free n (augment A).
Proof.
  intros w Hw H i. destruct (decide (i < n)%nat) as [Hi|Hi].
  - rewrite <- (dot_unit_vec n i w) by done.
    rewrite <- square.
    apply (H (row_of A i, row_of (identity (nrows A)) i)).
    unfold augment. apply list_elem_of_In, in_map_iff. exists i. split; [done|].
    apply in_seq. lia.
  - apply nth_overflow. lia.
Qed.

Lemma kernel_free_step k used todo p rest :
  gj_inv A k used todo ->
  find_pivot k todo = Some (p, rest) ->
  kernel_free n (used ++ todo) ->
  kernel_free n ((map (eliminate k (normalise k p)) used ++ [normalise k p])
                 ++ map (eliminate k (normalise k p)) rest).
Proof.
  intros (Hu & Ht & Hlen & Hred & Hcl) E Hk w Hw H.
  apply find_pivot_spec in E as [Hp Hperm].
  rewrite Hperm in Ht. apply Forall_cons in Ht as [Hpok Hrest].
  pose proof (row_ok_normalise A k p Hpok) as Hok'.
  set (p' := normalise k p) in *.
  assert (dot (snd p') w = 0) as Hp'.
  { apply H. rewrite !elem_of_app. left. right. apply list_elem_of_here. }
  assert (forall r, row_ok r -> eliminate k p' r ∈
            (map (eliminate k p') used ++ [p']) ++ map (eliminate k p') rest ->
          dot (snd r) w = 0) as Helim.
  { intros r Hr Hin. pose proof (H _ Hin) as H0. unfold eliminate in H0. cbn [snd] in H0.
    rewrite dot_axpy in H0.
    - rewrite Hp' in H0. rewrite <- H0. ring.
    - destruct Hok' as (_ & -> & _). by destruct Hr as (_ & -> & _). }
  apply Hk; [done|]. intros r Hin.
  apply elem_of_app in Hin as [Hin|Hin].
  - apply Helim.
    + by apply (proj1 (Forall_forall _ _) Hu).
    + rewrite !elem_of_app. left. left. apply list_elem_of_In, in_map.
      by apply list_elem_of_In.
  - rewrite Hperm in Hin. apply elem_of_cons in Hin as [->|Hin].
    + unfold p', normalise in Hp'. cbn [snd] in Hp'. rewrite dot_scale in Hp'.
      transitivity (nth k (fst p) 0 * (/ nth k (fst p) 0 * dot (snd p) w)).
      * by field.
      * rewrite Hp'. ring.
    + apply Helim.
      * by apply (proj1 (Forall_forall _ _) Hrest).
      * rewrite !elem_of_app. right. apply list_elem_of_In, in_map.
        by apply list_elem_of_In.
Qed.

(** When no row has a pivot in column [k], the columns up to [k] are
    dependent: a non-zero vector is sent to 0. *)
Lemma no_pivot_kernel k used todo :
  gj_inv A k used todo ->
  kernel_free n (used ++ todo) ->
  (k < n)%nat ->
  find_pivot k todo = None ->
  exists v, length v = n /\ nth k v 0 = 1 /\ forall i, nth i (matvec A v) 0 = 0.
Proof.
  intros (Hu & Ht & Hlen & Hred & Hcl) Hk Hkn E.
  apply find_pivot_None in E.
  set (vfun := fun j : nat =>
         if decide (j = k) then 1
         else if decide (j < k)%nat then - nth k (fst (nth j used ([], []))) 0
              else 0).
  set (v := map vfun (seq 0 n)).
  assert (length v = n) as Hv by (unfold v; by rewrite length_map, length_seq).
  exists v. split; [done|]. split.
  { unfold v. rewrite nth_map_seq by done. unfold vfun. by rewrite decide_True. }
  assert (forall r, r ∈ used ++ todo -> dot (fst r) v = 0) as Hdot.
  { intros r Hin. apply elem_of_app in Hin as [Hin|Hin].
    - apply list_elem_of_lookup_1 in Hin as [i Hi].
      pose proof (lookup_lt_Some _ _ _ Hi) as Hik. rewrite Hlen in Hik.
      pose proof (Forall_lookup_1 _ _ _ _ Hu Hi) as (Ha & _ & _).
      rewrite (dot_seq (fst r) v n) by done.
      rewrite (sum_ext_in _ (fun j => (if decide (i = j) then 1 else 0)
                                       * (- nth k (fst (nth j used ([], []))) 0)
                                     + (if decide (k = j) then 1 else 0)
                                       * nth k (fst r) 0)).
      + rewrite sum_add, !sum_unit.
        rewrite !decide_True by lia.
        rewrite (nth_lookup_Some _ _ _ _ Hi). ring.
      + intros j Hj. apply in_seq in Hj. unfold v. rewrite nth_map_seq by lia.
        unfold vfun. destruct (decide (j = k)) as [->|Hjk].
        * rewrite (decide_False (P := i = k)) by lia. rewrite decide_True by done. ring.
        * rewrite (decide_False (P := k = j)) by lia.
          destruct (decide (j < k)%nat) as [Hlt|Hge].
          -- rewrite (Hred i r j Hi Hlt). unfold delta. ring.
          -- rewrite (decide_False (P := i = j)) by lia. ring.
    - pose proof (proj1 (Forall_forall _ _) Ht r Hin) as (Ha & _ & _).
      pose proof (proj1 (Forall_forall _ _) Hcl r Hin) as Hc.
      pose proof (proj1 (Forall_forall _ _) E r Hin) as Hz. cbv beta in Hz.
      rewrite (dot_seq (fst r) v n) by done.
      rewrite (sum_ext_in _ (fun _ => 0)); [apply sum_zero|].
      intros j Hj. apply in_seq in Hj. unfold v. rewrite nth_map_seq by lia.
      unfold vfun. destruct (decide (j = k)) as [->|Hjk].
      + rewrite Hz. ring.
      + destruct (decide (j < k)%nat) as [Hlt|Hge].
        * rewrite (Hc j Hlt). ring.
        * ring. }
  apply Hk; [by rewrite length_matvec|].
  intros r Hin. rewrite <- dot_vecmat_assoc.
  - assert (row_ok r) as (_ & _ & <-).
    { apply elem_of_app in Hin as [Hin|Hin];
        [by apply (proj1 (Forall_forall _ _) Hu)|by apply (proj1 (Forall_forall _ _) Ht)]. }
    by apply Hdot.
  - assert (row_ok r) as (_ & -> & _); [|done].
    apply elem_of_app in Hin as [Hin|Hin];
      [by apply (proj1 (Forall_forall _ _) Hu)|by apply (proj1 (Forall_forall _ _) Ht)].
  - done.
Qed.

Lemma gauss_jordan_None steps : forall k used todo,
  gj_inv A k used todo ->
  kernel_free n (used ++ todo) ->
  (k + steps <= n)%nat ->
  gauss_jordan steps k used todo = None ->
  exists v, length v = n /\ (exists i, nth i v 0 <> 0)
            /\ forall i, nth i (matvec A v) 0 = 0.
Proof.
  induction steps as [|steps IH]; intros k used todo Hinv Hk Hle H; simpl in H; [done|].
  destruct (find_pivot k todo) as [[p rest]|] eqn:E.
  - apply (IH (S k) _ _ (gauss_jordan_step A _ _ _ _ _ Hinv E)); [|lia|done].
    by apply (kernel_free_step k used todo).
  - destruct (no_pivot_kernel k used todo Hinv Hk) as (v & Hv & H1 & H0); [lia|done|].
    exists v. split; [done|]. split; [|done]. exists k. by rewrite H1.
Qed.

(** An array with a left inverse is inverted. *)
Lemma inverse_complete C :
  ncols C = nrows A -> mmul C A = identity (nrows A) -> exists B, inverse A = Some B.
Proof.
  intros HC E. unfold inverse. rewrite decide_True by done.
  destruct (gauss_jordan (nrows A) 0 [] (augment A)) as [res|] eqn:Egj; [by eexists|].
  exfalso.
  assert (0 + nrows A <= n)%nat as Hle by (pose proof square; lia).
  destruct (gauss_jordan_None _ _ _ _ (gj_inv_augment A square)
              kernel_free_augment Hle Egj)
    as (v & Hv & [i Hi] & H0).
  apply Hi.
  assert (i < n)%nat as Hin.
  { destruct (decide (i < n)%nat); [done|]. destruct Hi. apply nth_overflow. lia. }
  assert (nrows C = nrows A) as HCr.
  { change (nrows (mmul C A) = nrows (identity (nrows A))). by rewrite E. }
  rewrite <- (dot_unit_vec n i v) by done.
  assert (row_of (identity n) i = vecmat (row_of C i) A) as ->.
  { apply list_nth_ext.
    - by rewrite length_row_of, length_vecmat.
    - intros j Hj. rewrite length_row_of in Hj. simpl in Hj.
      rewrite nth_vecmat by done. unfold row_of at 1. simpl.
      rewrite nth_map_seq by done. rewrite <- square, <- E.
      unfold mmul. by rewrite get_tabulate by lia. }
  rewrite dot_vecmat_assoc by (by rewrite ?length_row_of).
  by apply dot_zero_r.
Qed.

End GaussJordanComplete.

(** [inverse] fails on the square arrays with no left inverse, and on
    them only. *)
Lemma inverse_None_singular A :
  nrows A = ncols A -> inverse A = None <-> Spec.singular A.
Proof.
  intros Hsq. split.
  - intros HN. split; [done|]. intros B HB E.
    destruct (inverse_complete A Hsq B HB E) as [B' HB']. congruence.
  - intros [_ Hs]. destruct (inverse A) as [B|] eqn:E; [|done].
    destruct (inverse_shape _ _ E) as (_ & _ & Hc).
    destruct (Hs B Hc). by apply inverse_sound.
Qed.

(** ** The noise transition matrix is a unit of the product *)

Section IdentityProducts.

Local Open Scope Qc_scope.

Lemma tabulated_tabulate r c f : tabulated (tabulate r c f).
Proof.
  unfold tabulated. cbn [nrows ncols tabulate]. apply tabulate_ext.
  intros i j Hi Hj. by rewrite get_tabulate.
Qed.

Lemma tabulated_mmul A B : tabulated (mmul A B).
Proof. apply tabulated_tabulate. Qed.

Lemma dot_comm u v : dot u v = dot v u.
Proof.
  unfold dot. revert v. induction u as [|a u IH]; intros [|b v]; simpl; try done.
  rewrite IH. ring.
Qed.

Lemma get_tabulate_outside r c f i j :
  ~ (i < r /\ j < c)%nat -> get (tabulate r c f) i j = 0.
Proof.
  intros H. unfold get, tabulate. cbn [rows].
  destruct (decide (i < r)%nat) as [Hi|Hi].
  - rewrite (nth_indep _ [] (map (fun j => f 0%nat j) (seq 0 c)))
      by (rewrite length_map, length_seq; lia).
    rewrite (map_nth (fun i => map (fun j => f i j) (seq 0 c))).
    apply nth_overflow. rewrite length_map, length_seq. lia.
  - rewrite (nth_overflow _ [] (n := i)) by (rewrite length_map, length_seq; lia).
    by destruct j.
Qed.

Lemma col_of_identity n j : col_of (identity n) j = row_of (identity n) j.
Proof.
  unfold col_of, row_of. cbn [nrows ncols identity tabulate].
  apply map_ext_in. intros k Hk. apply in_seq in Hk.
  destruct (decide (j < n)%nat) as [Hj|Hj].
  - unfold identity. rewrite !get_tabulate by lia. repeat case_decide; done || lia.
  - unfold identity. by rewrite !get_tabulate_outside by lia.
Qed.

Lemma mmul_identity_l A : tabulated A -> mmul (identity (nrows A)) A = A.
Proof.
  intros HA. transitivity (tabulate (nrows A) (ncols A) (get A)); [|by symmetry].
  unfold mmul. cbn [nrows ncols identity tabulate].
  apply tabulate_ext. intros i j Hi Hj. by apply dot_unit.
Qed.

Lemma mmul_identity_r A : tabulated A -> mmul A (identity (ncols A)) = A.
Proof.
  intros HA. transitivity (tabulate (nrows A) (ncols A) (get A)); [|by symmetry].
  unfold mmul. cbn [nrows ncols identity tabulate].
  apply tabulate_ext. intros i j Hi Hj.
  rewrite col_of_identity, dot_comm.
  rewrite dot_unit_vec by (by rewrite ?length_row_of).
  unfold row_of. by rewrite nth_map_seq.
Qed.

(** With [G] the identity, [Sigma = M + inverse(Q)] and
    [Omega = M inverse(Sigma)]. *)
Lemma Sigma_identity n iFT Y iF iQ :
  nrows iFT = n -> ncols iF = n ->
  Spec.Sigma (identity n) (Spec.M iFT Y iF) iQ = madd (Spec.M iFT Y iF) iQ.
Proof.
  intros Hr Hc. unfold Spec.Sigma, Spec.M.
  set (M := mmul (mmul iFT Y) iF).
  change (nrows M = n) in Hr. change (ncols M = n) in Hc.
  rewrite <- Hr at 1. rewrite (mmul_identity_l M) by apply tabulated_mmul.
  rewrite <- Hc. by rewrite (mmul_identity_r M) by apply tabulated_mmul.
Qed.

Lemma Omega_identity n iFT Y iF iSigma :
  ncols iF = n ->
  Spec.Omega (identity n) (Spec.M iFT Y iF) iSigma = mmul (Spec.M iFT Y iF) iSigma.
Proof.
  intros Hc. unfold Spec.Omega, Spec.M.
  set (M := mmul (mmul iFT Y) iF). change (ncols M = n) in Hc.
  rewrite <- Hc. by rewrite (mmul_identity_r M) by apply tabulated_mmul.
Qed.

End IdentityProducts.

(** ** Shapes and the operations on values *)

Section Shapes.

Lemma nrows_mmul A B : nrows (mmul A B) = nrows A.
Proof. reflexivity. Qed.
Lemma ncols_mmul A B : ncols (mmul A B) = ncols B.
Proof. reflexivity. Qed.
Lemma nrows_transpose A : nrows (transpose A) = ncols A.
Proof. reflexivity. Qed.
Lemma ncols_transpose A : ncols (transpose A) = nrows A.
Proof. reflexivity. Qed.
Lemma nrows_identity n : nrows (identity n) = n.
Proof. reflexivity. Qed.
Lemma ncols_identity n : ncols (identity n) = n.
Proof. reflexivity. Qed.
Lemma nrows_zip f A B : nrows (zip_broadcast f A B) = broadcast_dim (nrows A) (nrows B).
Proof. reflexivity. Qed.
Lemma ncols_zip f A B : ncols (zip_broadcast f A B) = broadcast_dim (ncols A) (ncols B).
Proof. reflexivity. Qed.

Lemma broadcast_dim_same a : broadcast_dim a a = a.
Proof. unfold broadcast_dim. by case_decide. Qed.

Lemma matmul_Ok A B C :
  Pure.matmul A B = Ok C -> ncols A = nrows B /\ C = mmul A B.
Proof. unfold Pure.matmul. case_decide; [|done]. by intros [= <-]. Qed.

Lemma matmul_shape A B : ncols A = nrows B -> Pure.matmul A B = Ok (mmul A B).
Proof. intros H. unfold Pure.matmul. by rewrite decide_True. Qed.

Lemma matmul_mismatch A B : ncols A <> nrows B -> Pure.matmul A B = Raise ValueError.
Proof. intros H. unfold Pure.matmul. by rewrite decide_False. Qed.

Lemma elementwise_Ok f A B C :
  Pure.elementwise f A B = Ok C ->
  broadcastable (nrows A) (nrows B) /\ broadcastable (ncols A) (ncols B)
  /\ C = zip_broadcast f A B.
Proof.
  unfold Pure.elementwise, broadcast2. case_decide as H; [|done].
  intros [= <-]. by destruct H.
Qed.

Lemma elementwise_shape f A B :
  nrows A = nrows B -> ncols A = ncols B ->
  Pure.elementwise f A B = Ok (zip_broadcast f A B).
Proof.
  intros Hr Hc. unfold Pure.elementwise, broadcast2.
  rewrite decide_True; [done|]. split; by left.
Qed.

Lemma inv_Ok A B : Pure.inv A = Ok B -> inverse A = Some B.
Proof. unfold Pure.inv. destruct (inverse A); [|done]. by intros [= <-]. Qed.

Lemma inv_cases A :
  (exists B, inverse A = Some B /\ Pure.inv A = Ok B) \/ Pure.inv A = Raise LinAlgError.
Proof. unfold Pure.inv. destruct (inverse A) as [B|]; [left; by exists B|by right]. Qed.

Lemma getattr_Ok (name : State ndarray -> option ndarray) o a :
  getattr name o = Ok a -> name o = Some a.
Proof. unfold getattr. destruct (name o); [|done]. by intros [= <-]. Qed.

Lemma bind_Ok {A B} (m : result A) (k : A -> result B) r :
  (x ← m; k x) = Ok r -> exists x, m = Ok x /\ k x = Ok r.
Proof. destruct m as [x|e]; [|done]. intros H. by exists x. Qed.

End Shapes.

Create Rewrite HintDb shape.
#[global] Hint Rewrite nrows_mmul ncols_mmul nrows_transpose ncols_transpose
  nrows_identity ncols_identity nrows_zip ncols_zip broadcast_dim_same : shape.

(** ** What [predict] computes *)

Section PredictValues.

Variable self : InfoFilterPredictor result ndarray.

Local Abbreviation tm := (transition_model self).
Local Abbreviation cm := (control_model self).

Tactic Notation "bind_inv" hyp(H) ident(x) ident(E) :=
  apply bind_Ok in H as (x & E & H); cbn beta in H.

(** Every value [predict] returns is built by the steps of the method. *)
Lemma predict_Ok_inv prior ts kw r :
  predict self prior ts kw = Ok r ->
  exists F1 F Q Y iFT iF iQ iSigma,
    let dt := _predict_over_interval prior ts in
    tm_matrix tm None dt kw = Ok F1
    /\ tm_matrix tm (Some prior) dt kw = Ok F
    /\ tm_covar tm dt kw = Ok Q
    /\ (if is_information prior then info_matrix prior else covar prior) = Some Y
    /\ inverse (transpose F) = Some iFT
    /\ inverse F = Some iF
    /\ inverse Q = Some iQ
    /\ let G := identity (ndim_state tm) in
       let M := Spec.M iFT Y iF in
       let Sigma := Spec.Sigma G M iQ in
       inverse Sigma = Some iSigma
       /\ let Omega := Spec.Omega G M iSigma in
          let J := ones (ndim tm) (ndim tm) in
          r = mkState InformationStatePrediction
                (madd (mmul (mmul (msub J (mmul Omega (transpose G))) iFT)
                            (state_vector prior))
                      (mmul Y (control_vector cm)))
                (Some (Spec.Y_pred M Omega Sigma)) None ts.
Proof.
  unfold predict. intros H.
  bind_inv H u0 Ekw.
  bind_inv H t Et. unfold _transition_function in Et.
  bind_inv Et F1 EF1. apply matmul_Ok in Et as [_ ->].
  bind_inv H u Eu. injection Eu as <-.
  bind_inv H x_pred Ex.
  bind_inv H F EF. unfold _transition_matrix in EF.
  bind_inv H Q EQ.
  bind_inv H B EB. injection EB as <-.
  bind_inv H P EP.
  bind_inv H FP EFP. bind_inv H FT EFT. bind_inv H FPF EFPF.
  bind_inv H FPFQ EFPFQ. bind_inv H BQ EBQ. bind_inv H BT EBT.
  bind_inv H BQB EBQB. bind_inv H p_pred Ep.
  bind_inv H G EG. injection EG as <-.
  bind_inv H Y EY.
  bind_inv H FT' EFT'. injection EFT' as <-.
  bind_inv H iFT EiFT. apply inv_Ok in EiFT.
  bind_inv H iFTY E1. apply matmul_Ok in E1 as [_ ->].
  bind_inv H iF EiF. apply inv_Ok in EiF.
  bind_inv H M' E2. apply matmul_Ok in E2 as [_ ->].
  bind_inv H GM E3. apply matmul_Ok in E3 as [_ ->].
  bind_inv H GMG E4. apply matmul_Ok in E4 as [_ ->].
  bind_inv H iQ EiQ. apply inv_Ok in EiQ.
  bind_inv H Sigma ES. apply elementwise_Ok in ES as (_ & _ & ->).
  bind_inv H MG E5. apply matmul_Ok in E5 as [_ ->].
  bind_inv H iSigma EiS. apply inv_Ok in EiS.
  bind_inv H Omega E6. apply matmul_Ok in E6 as [_ ->].
  bind_inv H OS E7. apply matmul_Ok in E7 as [_ ->].
  bind_inv H OT E8. injection E8 as <-.
  bind_inv H OSO E9. apply matmul_Ok in E9 as [_ ->].
  bind_inv H Y_pred E10. apply elementwise_Ok in E10 as (_ & _ & ->).
  bind_inv H J EJ. injection EJ as <-.
  bind_inv H GT EGT. injection EGT as <-.
  bind_inv H OG E11. apply matmul_Ok in E11 as [_ ->].
  bind_inv H JOG E12. apply elementwise_Ok in E12 as (_ & _ & ->).
  bind_inv H FT'' E13. injection E13 as <-.
  bind_inv H iFT' E14. apply inv_Ok in E14.
  bind_inv H K E15. apply matmul_Ok in E15 as [_ ->].
  bind_inv H Ky E16. apply matmul_Ok in E16 as [_ ->].
  bind_inv H u' Eu'. injection Eu' as <-.
  bind_inv H Yu E17. apply matmul_Ok in E17 as [_ ->].
  bind_inv H y_pred E18. apply elementwise_Ok in E18 as (_ & _ & ->).
  injection H as <-.
  assert (iFT' = iFT) as -> by congruence.
  exists F1, F, Q, Y, iFT, iF, iQ, iSigma. cbn zeta.
  repeat split; try done.
  destruct (is_information prior); by apply getattr_Ok.
Qed.

End PredictValues.

(** ** The information matrix and the second-moment term *)

Section Recursion.

Variable self : InfoFilterPredictor result ndarray.

Local Abbreviation tm := (transition_model self).
Local Abbreviation cm := (control_model self).

Lemma is_information_cls (prior : State ndarray) :
  is_information prior
  = match cls prior with
    | InformationState | InformationStateUpdate | InformationStatePrediction => true
    | _ => false
    end.
Proof. unfold is_information, isinstance. by destruct (cls prior). Qed.

Lemma selected_second_moment (prior : State ndarray) :
  (if is_information prior then info_matrix prior else covar prior)
  = Spec.second_moment prior.
Proof.
  rewrite is_information_cls. unfold Spec.second_moment. by destruct (cls prior).
Qed.

(** C2: whenever [predict] returns an estimate, its information matrix is
    [Y_pred = M - Omega Sigma Omega^T], where
    [M = inverse(F^T) Y inverse(F)], [Sigma = G M G + inverse(Q)] and
    [Omega = M G inverse(Sigma)], with [G] the identity of size
    [ndim_state], [F] and [Q] the transition matrix and the process noise
    of the model, and [Y] the second-moment term [predict] selects. *)
Theorem predict_info_matrix prior ts kw r :
  predict self prior ts kw = Ok r ->
  exists F Q Y iFT iF iQ iSigma,
    let dt := _predict_over_interval prior ts in
    tm_matrix tm (Some prior) dt kw = Ok F
    /\ tm_covar tm dt kw = Ok Q
    /\ (if is_information prior then info_matrix prior else covar prior) = Some Y
    /\ inverse (transpose F) = Some iFT
    /\ inverse F = Some iF
    /\ inverse Q = Some iQ
    /\ let G := identity (ndim_state tm) in
       let M := Spec.M iFT Y iF in
       let Sigma := Spec.Sigma G M iQ in
       let Omega := Spec.Omega G M iSigma in
       inverse Sigma = Some iSigma
       /\ info_matrix r = Some (Spec.Y_pred M Omega Sigma).
Proof.
  intros H.
  destruct (predict_Ok_inv _ _ _ _ _ H)
    as (F1 & F & Q & Y & iFT & iF & iQ & iSigma & H1 & HF & HQ & HY & H2 & H3 & H4 & H5 & ->).
  exists F, Q, Y, iFT, iF, iQ, iSigma. cbn zeta. done.
Qed.

(** C3: the second-moment term [Y] of the recursion is the prior's
    [info_matrix] when the prior is of an information-state class, and
    the prior's [covar] for every other prior; it enters [M] and the
    control term as it is, without being inverted. *)
Theorem predict_second_moment prior ts kw r :
  predict self prior ts kw = Ok r ->
  exists Y,
    match cls prior with
    | InformationState | InformationStateUpdate | InformationStatePrediction =>
        info_matrix prior = Some Y
    | GaussianState | GaussianStateUpdate | GaussianStatePrediction | OtherState _ =>
        covar prior = Some Y
    end
    /\ exists F Q iFT iF iQ iSigma,
      let dt := _predict_over_interval prior ts in
      tm_matrix tm (Some prior) dt kw = Ok F
      /\ tm_covar tm dt kw = Ok Q
      /\ inverse (transpose F) = Some iFT
      /\ inverse F = Some iF
      /\ inverse Q = Some iQ
      /\ let G := identity (ndim_state tm) in
         let M := mmul (mmul iFT Y) iF in
         let Sigma := Spec.Sigma G M iQ in
         let Omega := Spec.Omega G M iSigma in
         inverse Sigma = Some iSigma
         /\ info_matrix r = Some (Spec.Y_pred M Omega Sigma)
         /\ state_vector r
            = madd (mmul (mmul (msub (ones (ndim tm) (ndim tm)) (mmul Omega (transpose G))) iFT)
                         (state_vector prior))
                   (mmul Y (control_vector cm)).
Proof.
  intros H.
  destruct (predict_Ok_inv _ _ _ _ _ H)
    as (F1 & F & Q & Y & iFT & iF & iQ & iSigma & H1 & HF & HQ & HY & H2 & H3 & H4 & H5 & ->).
  exists Y. split.
  - rewrite selected_second_moment in HY. unfold Spec.second_moment in HY.
    by destruct (cls prior).
  - exists F, Q, iFT, iF, iQ, iSigma. cbn zeta. done.
Qed.

End Recursion.

Import Samples.

Lemma cv_prediction :
  predict cv_predictor prior10 (Some 1%Z) [] = Ok cv_prediction_result.
Proof. vm_decide. Qed.

Lemma predict_info_matrix_witness :
  predict cv_predictor prior10 (Some 1%Z) [] = Ok cv_prediction_result
  /\ exists F Q Y iFT iF iQ iSigma,
      Ok cvF = Ok F /\ Ok cvQ = Ok Q /\ Some (identity 2) = Some Y
      /\ inverse (transpose F) = Some iFT /\ inverse F = Some iF /\ inverse Q = Some iQ
      /\ inverse (Spec.Sigma (identity 2) (Spec.M iFT Y iF) iQ) = Some iSigma
      /\ Some (of_rows [[q 110 131; q (-100) 131]; [q (-100) 131; q 210 131]])
         = Some (Spec.Y_pred (Spec.M iFT Y iF)
                   (Spec.Omega (identity 2) (Spec.M iFT Y iF) iSigma)
                   (Spec.Sigma (identity 2) (Spec.M iFT Y iF) iQ)).
Proof.
  split; [exact cv_prediction|].
  exact (predict_info_matrix cv_predictor prior10 (Some 1%Z) [] _ cv_prediction).
Defined.

Lemma predict_second_moment_witness :
  predict cv_predictor prior10 (Some 1%Z) [] = Ok cv_prediction_result
  /\ exists Y, Some (identity 2) = Some Y
      /\ exists F Q iFT iF iQ iSigma,
        Ok cvF = Ok F /\ Ok cvQ = Ok Q
        /\ inverse (transpose F) = Some iFT /\ inverse F = Some iF /\ inverse Q = Some iQ
        /\ inverse (Spec.Sigma (identity 2) (mmul (mmul iFT Y) iF) iQ) = Some iSigma
        /\ Some (of_rows [[q 110 131; q (-100) 131]; [q (-100) 131; q 210 131]])
           = Some (Spec.Y_pred (mmul (mmul iFT Y) iF)
                     (Spec.Omega (identity 2) (mmul (mmul iFT Y) iF) iSigma)
                     (Spec.Sigma (identity 2) (mmul (mmul iFT Y) iF) iQ))
        /\ column [q (-21) 131; q 31 131]
           = madd (mmul (mmul (msub (ones 2 2)
                                    (mmul (Spec.Omega (identity 2) (mmul (mmul iFT Y) iF) iSigma)
                                          (transpose (identity 2))))
                              iFT)
                        (column [qz 1; qz 0]))
                  (mmul Y (zeros 2 1)).
Proof.
  split; [exact cv_prediction|].
  exact (predict_second_moment cv_predictor prior10 (Some 1%Z) [] _ cv_prediction).
Defined.

(** ** The information vector *)

(** C1: at the constant-velocity model with prior vector [(1, 0)] and
    prior information matrix the identity, [predict] returns the vector
    [(-21/131, 31/131)], while [(I - Omega G^T) inverse(F^T) y + Y u] with
    the identity [I] is [(110/131, -100/131)]: the method subtracts
    [Omega G^T] from the all-ones array [np.ones((ndims, ndims))]. *)
Theorem predict_info_vector_all_ones :
  exists r iFT iF iQ iSigma,
    predict cv_predictor prior10 (Some 1%Z) [] = Ok r
    /\ inverse (transpose cvF) = Some iFT
    /\ inverse cvF = Some iF
    /\ inverse cvQ = Some iQ
    /\ let G := identity 2 in
       let M := Spec.M iFT (identity 2) iF in
       let Sigma := Spec.Sigma G M iQ in
       let Omega := Spec.Omega G M iSigma in
       inverse Sigma = Some iSigma
       /\ state_vector r = column [q (-21) 131; q 31 131]
       /\ Spec.y_pred 2 Omega G iFT (column [qz 1; qz 0]) (identity 2) (zeros 2 1)
          = column [q 110 131; q (-100) 131]
       /\ state_vector r
          <> Spec.y_pred 2 Omega G iFT (column [qz 1; qz 0]) (identity 2) (zeros 2 1).
Proof.
  exists cv_prediction_result.
  exists (of_rows [[qz 1; qz 0]; [qz (-1); qz 1]]).
  exists (of_rows [[qz 1; qz (-1)]; [qz 0; qz 1]]).
  exists (of_rows [[qz 10; qz 0]; [qz 0; qz 10]]).
  exists (of_rows [[q 12 131; q 1 131]; [q 1 131; q 11 131]]).
  cbn zeta. repeat split; vm_decide.
Qed.

(** In one dimension the all-ones array is the identity, and the vector
    [predict] returns is the one of the formula. *)
Lemma ones_1 : ones 1 1 = identity 1.
Proof. vm_decide. Qed.

Lemma ones_not_identity n : 2 <= n -> ones n n <> identity n.
Proof.
  intros Hn E. assert (get (ones n n) 0 1 = get (identity n) 0 1) as H by (by rewrite E).
  unfold ones, identity in H. rewrite !get_tabulate in H by lia.
  by case_decide.
Qed.

(** ** Construction *)

(** C4: built with no control model, the predictor holds the zero-effect
    control model of the transition model's state dimension (all-zero
    control matrix, zero control input, all-zero control noise), and
    [predict] returns what it returns for a predictor built with that
    zero-effect model given explicitly. *)
Theorem init_no_control_model (tm : TransitionModel result ndarray) :
  exists p p',
    InfoFilterPredictor_init (Some tm) None = Ok p
    /\ InfoFilterPredictor_init (Some tm) (Some (Spec.zero_effect (ndim_state tm))) = Ok p'
    /\ transition_model p = tm
    /\ control_matrix (control_model p) = zeros (ndim_state tm) (ndim_state tm)
    /\ control_vector (control_model p) = zeros (ndim_state tm) 1
    /\ control_noise (control_model p) = zeros (ndim_state tm) (ndim_state tm)
    /\ forall prior ts kw, predict p prior ts kw = predict p' prior ts kw.
Proof.
  exists (mkInfoFilterPredictor tm (Spec.zero_effect (ndim_state tm))).
  exists (mkInfoFilterPredictor tm (Spec.zero_effect (ndim_state tm))).
  repeat split.
Qed.

(** C9: building the predictor with no transition model raises
    [ConfigurationError], whatever the control model. *)
Theorem init_no_transition_model (cm : option (LinearControlModel ndarray)) :
  InfoFilterPredictor_init (M := result) None cm = Raise ConfigurationError.
Proof. reflexivity. Qed.

(** ** Mismatched dimensions *)

Section Dimensions.

Variable self : InfoFilterPredictor result ndarray.
Local Abbreviation tm := (transition_model self).

(** C7 (amended): when the transition model returns a matrix with
    [ndim_state] columns and the prior's vector has another number of
    rows, [predict] raises numpy's [ValueError], at its first matrix
    product. *)
Theorem predict_dimension_mismatch prior ts kw F1 :
  "time_interval"%string ∉ kw.*1 ->
  tm_matrix tm None (_predict_over_interval prior ts) kw = Ok F1 ->
  ncols F1 = ndim_state tm ->
  nrows (state_vector prior) <> ndim_state tm ->
  predict self prior ts kw = Raise ValueError.
Proof.
  intros Hkw HF Hc Hr. unfold predict, _transition_function, pass_time_interval.
  rewrite bool_decide_eq_false_2 by done.
  rewrite HF. cbn [mbind result_bind mret result_ret np_matmul Pure.numpy].
  rewrite matmul_mismatch by congruence. reflexivity.
Qed.

End Dimensions.

(** A model of dimension 4 and priors of dimension 2 and 6. *)
Lemma predict_dimension_mismatch_witness :
  predict (constant_predictor 4 (identity 4) (identity 4))
    (information_state [qz 1; qz 0] (identity 2) 0) (Some 1%Z) []
  = Raise ValueError.
Proof.
  apply (predict_dimension_mismatch _ _ _ _ (identity 4)).
  - simpl. apply not_elem_of_nil.
  - reflexivity.
  - reflexivity.
  - simpl. lia.
Defined.

(** C7 as stated fails: the exception is not [IncompatibleDimensionsError]. *)
Lemma predict_dimension_mismatch_not_incompatible :
  let p := constant_predictor 4 (identity 4) (identity 4) in
  let prior2 := information_state [qz 1; qz 0] (identity 2) 0 in
  let prior6 := information_state [qz 1; qz 0; qz 0; qz 0; qz 0; qz 0] (identity 6) 0 in
  (nrows (state_vector prior2) <> ndim_state (transition_model p)
   /\ predict p prior2 (Some 1%Z) [] = Raise ValueError
   /\ predict p prior2 (Some 1%Z) [] <> Raise IncompatibleDimensionsError)
  /\ (nrows (state_vector prior6) <> ndim_state (transition_model p)
      /\ predict p prior6 (Some 1%Z) [] = Raise ValueError
      /\ predict p prior6 (Some 1%Z) [] <> Raise IncompatibleDimensionsError).
Proof. cbn zeta. repeat split; vm_decide. Qed.

(** ** Singular matrices *)

Lemma inverse_shape_n A B n :
  inverse A = Some B -> nrows A = n -> nrows B = n /\ ncols B = n.
Proof. intros H Hn. destruct (inverse_shape _ _ H) as (_ & -> & ->). done. Qed.

Lemma inverse_singular A : Spec.singular A -> inverse A = None.
Proof.
  intros [_ Hs]. destruct (inverse A) as [B|] eqn:E; [|done].
  destruct (inverse_shape _ _ E) as (_ & _ & Hc).
  destruct (Hs B Hc). by apply inverse_sound.
Qed.

Lemma inv_singular A : Spec.singular A -> Pure.inv A = Raise LinAlgError.
Proof. intros H. unfold Pure.inv. by rewrite inverse_singular. Qed.

(** An array with a zero column has no left inverse. *)
Lemma zero_column_singular A j :
  nrows A = ncols A -> j < ncols A ->
  (forall i, i < nrows A -> get A i j = 0%Qc) ->
  Spec.singular A.
Proof.
  intros Hsq Hj Hz. split; [done|]. intros B _ E.
  assert (get (mmul B A) j j = get (identity (nrows A)) j j) as H by (by rewrite E).
  unfold identity in H. rewrite get_tabulate in H by lia.
  rewrite decide_True in H by done.
  destruct (decide (j < nrows B)) as [Hb|Hb].
  - unfold mmul in H. rewrite get_tabulate in H by lia.
    unfold dot, col_of in H.
    rewrite (map_ext_in _ (fun _ => 0%Qc)) in H.
    2:{ intros k Hk. apply in_seq in Hk. apply Hz. lia. }
    assert (forall (u : list Qc) l, sum (zip_with Qcmult u (map (fun _ : nat => 0%Qc) l)) = 0%Qc) as Hs.
    { induction u as [|a u IH]; intros [|b l]; simpl; try done. rewrite IH. ring. }
    rewrite Hs in H. done.
  - assert (nrows (mmul B A) = nrows (identity (nrows A))) as Hn by (by rewrite E).
    simpl in Hn. lia.
Qed.

Section Singular.

Variable self : InfoFilterPredictor result ndarray.
Local Abbreviation tm := (transition_model self).
Local Abbreviation cm := (control_model self).

Ltac shape :=
  repeat first
    [ progress autorewrite with shape
    | match goal with
      | H : nrows _ = _ |- _ => rewrite H
      | H : ncols _ = _ |- _ => rewrite H
      end ];
  done.

Ltac step_matmul :=
  lazymatch goal with
  | |- mbind _ (Pure.matmul ?A ?B) = _ =>
      rewrite (matmul_shape A B) by shape; cbn [mbind result_bind]
  end.
Ltac step_add :=
  lazymatch goal with
  | |- mbind _ (Pure.elementwise ?f ?A ?B) = _ =>
      rewrite (elementwise_shape f A B) by shape; cbn [mbind result_bind]
  end.

(** With arrays of the shapes of state dimension [n], [ndim] equal to
    [ndim_state] and the four inverses at hand, [predict] returns. *)
Lemma predict_returns prior ts kw F1 F Q Y iFT iF iQ iSigma :
  let dt := _predict_over_interval prior ts in
  let n := ndim_state tm in
  "time_interval"%string ∉ kw.*1 ->
  tm_matrix tm None dt kw = Ok F1 ->
  tm_matrix tm (Some prior) dt kw = Ok F ->
  tm_covar tm dt kw = Ok Q ->
  Spec.second_moment prior = Some Y ->
  Spec.well_shaped n F1 F Q Y (state_vector prior)
    (control_vector cm) (control_matrix cm) (control_noise cm) ->
  ndim tm = n ->
  inverse (transpose F) = Some iFT ->
  inverse F = Some iF ->
  inverse Q = Some iQ ->
  let G := identity n in
  let M := Spec.M iFT Y iF in
  let Sigma := Spec.Sigma G M iQ in
  let Omega := Spec.Omega G M iSigma in
  inverse Sigma = Some iSigma ->
  predict self prior ts kw
  = Ok (mkState InformationStatePrediction
          (madd (mmul (mmul (msub (ones n n) (mmul Omega (transpose G))) iFT)
                      (state_vector prior))
                (mmul Y (control_vector cm)))
          (Some (Spec.Y_pred M Omega Sigma)) None ts).
Proof.
  intros dt n Hkw HF1 HF HQ HY
    ((F1r & F1c) & (Fr & Fc) & (Qr & Qc') & (Yr & Yc) & (yr & yc) & (ur & uc) & Br & (Nr & Nc))
    Hndim EiFT EiF EiQ G M Sigma Omega EiS.
  rewrite <- selected_second_moment in HY.
  unfold predict, _transition_function, _transition_matrix, _control_matrix,
    _noise_transition_matrix, control_input, cm_matrix, pass_time_interval.
  rewrite bool_decide_eq_false_2 by done.
  fold dt. rewrite HF1, HF, HQ, Hndim.
  assert ((if is_information prior then getattr info_matrix prior else getattr covar prior)
          = Ok Y) as ->.
  { unfold getattr. destruct (is_information prior); by rewrite HY. }
  cbn [mbind result_bind mret result_ret np_matmul np_add np_sub np_T np_inv
       np_identity np_ones np_zeros Pure.numpy].
  fold n.
  destruct (inverse_shape_n _ _ n EiFT) as [iFTr iFTc]; [shape|].
  destruct (inverse_shape_n _ _ n EiF) as [iFr iFc]; [shape|].
  destruct (inverse_shape_n _ _ n EiQ) as [iQr iQc]; [shape|].
  assert (Pure.inv (transpose F) = Ok iFT) as EiFT' by (unfold Pure.inv; by rewrite EiFT).
  assert (Pure.inv F = Ok iF) as EiF' by (unfold Pure.inv; by rewrite EiF).
  assert (Pure.inv Q = Ok iQ) as EiQ' by (unfold Pure.inv; by rewrite EiQ).
  step_matmul. step_add. step_matmul. step_matmul. step_add.
  step_matmul. step_matmul. step_add.
  rewrite EiFT'. cbn [mbind result_bind].
  step_matmul. rewrite EiF'. cbn [mbind result_bind].
  step_matmul. step_matmul. step_matmul.
  rewrite EiQ'. cbn [mbind result_bind].
  step_add. step_matmul.
  assert (Pure.inv Sigma = Ok iSigma) as EiS' by (unfold Pure.inv; by rewrite EiS).
  unfold Sigma, Spec.Sigma, M, Spec.M, madd, G in EiS, EiS'.
  rewrite EiS'. cbn [mbind result_bind].
  destruct (inverse_shape_n _ _ n EiS) as [iSr iSc]; [shape|].
  step_matmul. step_matmul. step_matmul. step_add.
  step_matmul. step_add.
  cbn [mbind result_bind].
  step_matmul. step_matmul. step_matmul. step_add.
  reflexivity.
Qed.

End Singular.

(** An array with two equal columns has no left inverse. *)
Lemma equal_columns_singular A j1 j2 :
  nrows A = ncols A -> j1 < ncols A -> j2 < ncols A -> j1 <> j2 ->
  col_of A j1 = col_of A j2 ->
  Spec.singular A.
Proof.
  intros Hsq H1 H2 Hne Hcol. split; [done|]. intros B _ E.
  assert (nrows (mmul B A) = nrows (identity (nrows A))) as Hn by (by rewrite E).
  simpl in Hn.
  assert (get (mmul B A) j1 j1 = get (mmul B A) j1 j2) as H.
  { unfold mmul. rewrite !get_tabulate by lia. by rewrite Hcol. }
  rewrite E in H. unfold identity in H. rewrite !get_tabulate in H by lia.
  rewrite decide_True, decide_False in H by done. done.
Qed.

Lemma zero_row_F_singular : Spec.singular zero_row_F.
Proof. apply (equal_columns_singular _ 0 1); (reflexivity || (simpl; lia)). Qed.

Lemma zero_noise_singular : Spec.singular (zeros 2 2).
Proof.
  apply (zero_column_singular _ 0); [reflexivity|simpl; lia|].
  intros i Hi. simpl in Hi. unfold zeros. by rewrite get_tabulate by lia.
Qed.

(** *** [predict] with an arbitrary [inv] *)

Lemma inv_interface_Pure : inv_interface Pure.inv.
Proof.
  split.
  - intros A e. unfold Pure.inv. destruct (inverse A); congruence.
  - intros A B. unfold Pure.inv. destruct (inverse A) as [B'|] eqn:E; [|done].
    intros [= ->]. destruct (inverse_shape _ _ E) as (Hsq & -> & ->). by rewrite <- Hsq.
Qed.

(** Run with the exact inverse, [predict_with] is [predict]. *)
Lemma predict_with_Pure self prior ts kw :
  predict_with Pure.inv self prior ts kw = predict self prior ts kw.
Proof. reflexivity. Qed.

Section Unguarded.

Variable inv : ndarray -> result ndarray.
Hypothesis inv_ok : inv_interface inv.

Variable self : InfoFilterPredictor result ndarray.
Local Abbreviation tm := (transition_model self).
Local Abbreviation cm := (control_model self).

Variables (prior : State ndarray) (ts : option Z) (kw : kwargs).
Variables (F1 F Q Y : ndarray).

Local Abbreviation dt := (_predict_over_interval prior ts).
Local Abbreviation n := (ndim_state tm).

Hypothesis kw_ok : "time_interval"%string ∉ kw.*1.
Hypothesis model_F1 : tm_matrix tm None dt kw = Ok F1.
Hypothesis model_F : tm_matrix tm (Some prior) dt kw = Ok F.
Hypothesis model_Q : tm_covar tm dt kw = Ok Q.
Hypothesis prior_Y : Spec.second_moment prior = Some Y.
Hypothesis shapes :
  Spec.well_shaped n F1 F Q Y (state_vector prior)
    (control_vector cm) (control_matrix cm) (control_noise cm).

Ltac shape :=
  repeat first
    [ progress autorewrite with shape
    | match goal with
      | H : nrows _ = _ |- _ => rewrite H
      | H : ncols _ = _ |- _ => rewrite H
      end ];
  done.

Ltac step_matmul :=
  lazymatch goal with
  | |- mbind _ (Pure.matmul ?A ?B) = _ =>
      rewrite (matmul_shape A B) by shape; cbn [mbind result_bind]
  end.
Ltac step_add :=
  lazymatch goal with
  | |- mbind _ (Pure.elementwise ?f ?A ?B) = _ =>
      rewrite (elementwise_shape f A B) by shape; cbn [mbind result_bind]
  end.
Ltac step_inv E :=
  lazymatch goal with
  | |- mbind _ (inv _) = _ => rewrite E; cbn [mbind result_bind]
  end.

(* Runs [predict_with] up to its first call of [inv]. *)
Ltac start :=
  let HY := fresh in
  pose proof prior_Y as HY; rewrite <- selected_second_moment in HY;
  unfold predict_with, predict, _transition_function, _transition_matrix,
    _control_matrix, _noise_transition_matrix, control_input, cm_matrix,
    pass_time_interval;
  rewrite bool_decide_eq_false_2 by done;
  rewrite model_F1, model_F, model_Q;
  replace (if is_information prior then getattr info_matrix prior
           else getattr covar prior) with (@Ok ndarray Y)
    by (unfold getattr; destruct (is_information prior); by rewrite HY);
  cbn [mbind result_bind mret result_ret np_matmul np_add np_sub np_T np_inv
       np_identity np_ones np_zeros numpy_with];
  step_matmul; step_add; step_matmul; step_matmul; step_add;
  step_matmul; step_matmul; step_add.

Lemma inv_shape_n A B m :
  inv A = Ok B -> nrows A = m -> ncols A = m -> nrows B = m /\ ncols B = m.
Proof.
  intros E Hr Hc. destruct inv_ok as [_ Hs].
  destruct (Hs A B E) as [-> ->]. done.
Qed.

(** The exception of the first call of [inv] that fails is the outcome
    of [predict]. *)
Lemma predict_with_raises_FT e :
  inv (transpose F) = Raise e -> predict_with inv self prior ts kw = Raise e.
Proof.
  intros E.
  destruct shapes as ((F1r & F1c) & (Fr & Fc) & (Qr & Qc') & (Yr & Yc) & (yr & yc)
                      & (ur & uc) & Br & (Nr & Nc)).
  start. by rewrite E.
Qed.

Lemma predict_with_raises_F iFT e :
  inv (transpose F) = Ok iFT -> inv F = Raise e ->
  predict_with inv self prior ts kw = Raise e.
Proof.
  intros EiFT E.
  destruct shapes as ((F1r & F1c) & (Fr & Fc) & (Qr & Qc') & (Yr & Yc) & (yr & yc)
                      & (ur & uc) & Br & (Nr & Nc)).
  destruct (inv_shape_n _ _ n EiFT) as [iFTr iFTc]; [shape..|].
  start. step_inv EiFT. step_matmul. by rewrite E.
Qed.

Lemma predict_with_raises_Q iFT iF e :
  inv (transpose F) = Ok iFT -> inv F = Ok iF -> inv Q = Raise e ->
  predict_with inv self prior ts kw = Raise e.
Proof.
  intros EiFT EiF E.
  destruct shapes as ((F1r & F1c) & (Fr & Fc) & (Qr & Qc') & (Yr & Yc) & (yr & yc)
                      & (ur & uc) & Br & (Nr & Nc)).
  destruct (inv_shape_n _ _ n EiFT) as [iFTr iFTc]; [shape..|].
  destruct (inv_shape_n _ _ n EiF) as [iFr iFc]; [shape..|].
  start. step_inv EiFT. step_matmul. step_inv EiF.
  step_matmul. step_matmul. step_matmul. by rewrite E.
Qed.

Lemma predict_with_raises_Sigma iFT iF iQ e :
  inv (transpose F) = Ok iFT -> inv F = Ok iF -> inv Q = Ok iQ ->
  inv (Spec.Sigma (identity n) (Spec.M iFT Y iF) iQ) = Raise e ->
  predict_with inv self prior ts kw = Raise e.
Proof.
  intros EiFT EiF EiQ E.
  destruct shapes as ((F1r & F1c) & (Fr & Fc) & (Qr & Qc') & (Yr & Yc) & (yr & yc)
                      & (ur & uc) & Br & (Nr & Nc)).
  destruct (inv_shape_n _ _ n EiFT) as [iFTr iFTc]; [shape..|].
  destruct (inv_shape_n _ _ n EiF) as [iFr iFc]; [shape..|].
  destruct (inv_shape_n _ _ n EiQ) as [iQr iQc]; [shape..|].
  start. step_inv EiFT. step_matmul. step_inv EiF.
  step_matmul. step_matmul. step_matmul. step_inv EiQ.
  step_add. step_matmul.
  unfold Spec.Sigma, Spec.M, madd in E. by rewrite E.
Qed.

(** When the four calls of [inv] return, [predict] returns the estimate
    computed from their results, whatever these are. *)
Lemma predict_with_returns iFT iF iQ iSigma :
  ndim tm = n ->
  inv (transpose F) = Ok iFT -> inv F = Ok iF -> inv Q = Ok iQ ->
  let G := identity n in
  let M := Spec.M iFT Y iF in
  let Sigma := Spec.Sigma G M iQ in
  let Omega := Spec.Omega G M iSigma in
  inv Sigma = Ok iSigma ->
  predict_with inv self prior ts kw
  = Ok (mkState InformationStatePrediction
          (madd (mmul (mmul (msub (ones n n) (mmul Omega (transpose G))) iFT)
                      (state_vector prior))
                (mmul Y (control_vector cm)))
          (Some (Spec.Y_pred M Omega Sigma)) None ts).
Proof.
  intros Hndim EiFT EiF EiQ G M Sigma Omega EiS.
  destruct shapes as ((F1r & F1c) & (Fr & Fc) & (Qr & Qc') & (Yr & Yc) & (yr & yc)
                      & (ur & uc) & Br & (Nr & Nc)).
  destruct (inv_shape_n _ _ n EiFT) as [iFTr iFTc]; [shape..|].
  destruct (inv_shape_n _ _ n EiF) as [iFr iFc]; [shape..|].
  destruct (inv_shape_n _ _ n EiQ) as [iQr iQc]; [shape..|].
  unfold Sigma, Spec.Sigma, M, Spec.M, madd, G in EiS.
  destruct (inv_shape_n _ _ n EiS) as [iSr iSc]; [shape..|].
  start. rewrite Hndim.
  step_inv EiFT. step_matmul. step_inv EiF.
  step_matmul. step_matmul. step_matmul. step_inv EiQ.
  step_add. step_matmul. step_inv EiS.
  step_matmul. step_matmul. step_matmul. step_add.
  step_matmul. step_add.
  step_matmul. step_matmul. step_matmul. step_add.
  reflexivity.
Qed.

(** C8 (amended): [predict] has no guard of its own against singular
    matrices; it calls [inv] on [F.T], [F], [Q] and [Sigma] as they are.
    Whatever [inv] computes (it raises [LinAlgError] only and returns
    arrays of the shape of its argument), with arrays of the shapes of the
    state dimension: when one of the four calls fails, [predict] raises
    numpy's [LinAlgError], which carries no mention of the matrix; and when
    the four calls return, [predict] returns the estimate computed from
    their results, with no check of its values. *)
Theorem predict_singular :
  ((exists e, inv (transpose F) = Raise e)
   \/ (exists e, inv F = Raise e)
   \/ (exists e, inv Q = Raise e)
   \/ (exists iFT iF iQ e,
         inv (transpose F) = Ok iFT /\ inv F = Ok iF /\ inv Q = Ok iQ
         /\ inv (Spec.Sigma (identity n) (Spec.M iFT Y iF) iQ) = Raise e) ->
   predict_with inv self prior ts kw = Raise LinAlgError)
  /\ (forall iFT iF iQ iSigma,
        ndim tm = n ->
        inv (transpose F) = Ok iFT -> inv F = Ok iF -> inv Q = Ok iQ ->
        let G := identity n in
        let M := Spec.M iFT Y iF in
        let Sigma := Spec.Sigma G M iQ in
        let Omega := Spec.Omega G M iSigma in
        inv Sigma = Ok iSigma ->
        predict_with inv self prior ts kw
        = Ok (mkState InformationStatePrediction
                (madd (mmul (mmul (msub (ones n n) (mmul Omega (transpose G))) iFT)
                            (state_vector prior))
                      (mmul Y (control_vector cm)))
                (Some (Spec.Y_pred M Omega Sigma)) None ts)).
Proof.
  destruct inv_ok as [Hr _].
  split; [|exact predict_with_returns].
  assert (forall e, inv (transpose F) = Raise e ->
            predict_with inv self prior ts kw = Raise LinAlgError) as HFT.
  { intros e E. rewrite (predict_with_raises_FT e E). f_equal. exact (Hr _ _ E). }
  assert (forall e, inv F = Raise e ->
            predict_with inv self prior ts kw = Raise LinAlgError) as HF.
  { intros e E. destruct (inv (transpose F)) as [iFT|e1] eqn:EiFT; [|by eapply HFT].
    rewrite (predict_with_raises_F iFT e EiFT E). f_equal. exact (Hr _ _ E). }
  intros [[e E]|[[e E]|[[e E]|(iFT & iF & iQ & e & EiFT & EiF & EiQ & E)]]].
  - by eapply HFT.
  - by eapply HF.
  - destruct (inv (transpose F)) as [iFT|e1] eqn:EiFT; [|by eapply HFT].
    destruct (inv F) as [iF|e2] eqn:EiF; [|by eapply HF].
    rewrite (predict_with_raises_Q iFT iF e EiFT EiF E). f_equal. exact (Hr _ _ E).
  - rewrite (predict_with_raises_Sigma iFT iF iQ e EiFT EiF EiQ E).
    f_equal. exact (Hr _ _ E).
Qed.

End Unguarded.

Lemma predict_singular_witness :
  predict_with Pure.inv (constant_predictor 2 zero_row_F cvQ) prior10 (Some 1%Z) []
  = Raise LinAlgError
  /\ exists r, predict_with Pure.inv cv_predictor prior10 (Some 1%Z) [] = Ok r.
Proof.
  split.
  - refine (proj1 (predict_singular Pure.inv inv_interface_Pure
                     (constant_predictor 2 zero_row_F cvQ) prior10 (Some 1%Z) []
                     zero_row_F zero_row_F cvQ (identity 2) _ _ _ _ _ _) _).
    + simpl. apply not_elem_of_nil.
    + reflexivity.
    + reflexivity.
    + reflexivity.
    + reflexivity.
    + repeat split; reflexivity.
    + left. exists LinAlgError. vm_decide.
  - eexists.
    eapply (proj2 (predict_singular Pure.inv inv_interface_Pure
                     cv_predictor prior10 (Some 1%Z) []
                     cvF cvF cvQ (identity 2) _ _ _ _ _ _));
      [reflexivity | vm_compute; reflexivity..].
    Unshelve.
    + simpl. apply not_elem_of_nil.
    + reflexivity.
    + reflexivity.
    + reflexivity.
    + reflexivity.
    + repeat split; reflexivity.
Defined.

(** C8 as stated fails: for a transition matrix with a zero row, and for
    zero process noise, the exception is numpy's [LinAlgError], not a
    [SingularMatrixError] that names the matrix. *)
Lemma predict_singular_not_identified :
  (Spec.singular zero_row_F
   /\ predict (constant_predictor 2 zero_row_F cvQ) prior10 (Some 1%Z) []
      = Raise LinAlgError
   /\ forall role,
       predict (constant_predictor 2 zero_row_F cvQ) prior10 (Some 1%Z) []
       <> Raise (SingularMatrixError role))
  /\ (Spec.singular (zeros 2 2)
      /\ predict (constant_predictor 2 cvF (zeros 2 2)) prior10 (Some 1%Z) []
         = Raise LinAlgError
      /\ forall role,
          predict (constant_predictor 2 cvF (zeros 2 2)) prior10 (Some 1%Z) []
          <> Raise (SingularMatrixError role)).
Proof.
  assert (predict (constant_predictor 2 zero_row_F cvQ) prior10 (Some 1%Z) []
          = Raise LinAlgError) as E1 by vm_decide.
  assert (predict (constant_predictor 2 cvF (zeros 2 2)) prior10 (Some 1%Z) []
          = Raise LinAlgError) as E2 by vm_decide.
  split; (split; [|split]);
    [exact zero_row_F_singular|exact E1| |exact zero_noise_singular|exact E2|].
  - intros role. by rewrite E1.
  - intros role. by rewrite E2.
Qed.

(** ** The cache of [lru_cache] *)

Section LruCacheProperties.

Import functools.

Context {K V : Type} `{!EqDecision K}.
Variable maxsize : nat.
Variable f : K -> result V.
Hypothesis maxsize_pos : 0 < maxsize.

Lemma assoc_app_None k (l1 l2 : list (K * V)) :
  assoc k l1 = None -> assoc k (l1 ++ l2) = assoc k l2.
Proof.
  induction l1 as [|[k' v'] l1 IH]; simpl; [done|].
  case_decide; [done|]. exact IH.
Qed.

Lemma assoc_found k v (pre post : list (K * V)) :
  assoc k pre = None -> assoc k (pre ++ (k, v) :: post) = Some v.
Proof.
  intros H. rewrite assoc_app_None by done. simpl. by rewrite decide_True.
Qed.

Lemma remove_app k (l1 l2 : list (K * V)) :
  remove k (l1 ++ l2) = remove k l1 ++ remove k l2.
Proof.
  induction l1 as [|[k' v'] l1 IH]; simpl; [done|].
  case_decide; [done|]. simpl. by rewrite IH.
Qed.

Lemma length_remove k (l : list (K * V)) : length (remove k l) <= length l.
Proof.
  induction l as [|[k' v'] l IH]; simpl; [done|].
  case_decide; simpl; lia.
Qed.

Lemma assoc_remove_ne k k' (l : list (K * V)) :
  k' <> k -> assoc k (remove k' l) = assoc k l.
Proof.
  intros Hne. induction l as [|[k0 v0] l IH]; simpl; [done|].
  destruct (decide (k0 = k')) as [->|H0].
  - rewrite decide_False by done. exact IH.
  - simpl. case_decide; [done|]. exact IH.
Qed.

Lemma assoc_remove_eq k (l : list (K * V)) : assoc k (remove k l) = None.
Proof.
  induction l as [|[k0 v0] l IH]; simpl; [done|].
  destruct (decide (k0 = k)) as [->|H0]; [done|].
  simpl. by rewrite decide_False.
Qed.

Lemma assoc_take k v n (l : list (K * V)) :
  assoc k (take n l) = Some v -> assoc k l = Some v.
Proof.
  revert n. induction l as [|[k0 v0] l IH]; intros [|n]; simpl; try done.
  case_decide; [done|]. apply IH.
Qed.

(** After a call that returns [v], the entry of its key is the first. *)
Lemma call_cached k v c :
  fst (call maxsize f k c) = Ok v -> cached_within k v 0 (snd (call maxsize f k c)).
Proof.
  unfold call, hit, miss. destruct (assoc k (entries c)) as [v0|] eqn:E; simpl.
  - intros [= <-]. by exists [], (remove k (entries c)).
  - destruct (f k) as [v0|e]; simpl; [|done]. intros [= <-].
    destruct maxsize as [|m]; [lia|]. simpl.
    by exists [], (take m (entries c)).
Qed.

(** One more call moves the entry back by one place at most. *)
Lemma call_keeps k v j k' c :
  S j < maxsize -> cached_within k v j c ->
  cached_within k v (S j) (snd (call maxsize f k' c)).
Proof.
  intros Hj (pre & post & E & Hpre & Hlen).
  unfold call, hit, miss. destruct (decide (k' = k)) as [->|Hne].
  - rewrite E, assoc_found by done. simpl.
    exists [], (remove k (pre ++ (k, v) :: post)). split_and!; simpl; [done|done|lia].
  - destruct (assoc k' (entries c)) as [v'|] eqn:E'; simpl.
    + exists ((k', v') :: remove k' pre), (remove k' post). split_and!.
      * rewrite E, remove_app. simpl. by rewrite decide_False by done.
      * simpl. rewrite decide_False by done. by rewrite assoc_remove_ne.
      * simpl. pose proof (length_remove k' pre). lia.
    + destruct (f k') as [v'|e]; simpl.
      * exists ((k', v') :: pre), (take (maxsize - S (S (length pre))) post).
        split_and!.
        -- rewrite E. destruct maxsize as [|m]; [lia|]. simpl. f_equal.
           rewrite take_app. rewrite (take_ge pre) by lia. f_equal.
           destruct (m - length pre) as [|d] eqn:Ed; [lia|]. simpl. f_equal.
           f_equal. lia.
        -- simpl. by rewrite decide_False.
        -- simpl. lia.
      * exists pre, post. split_and!; [done|done|lia].
Qed.

Lemma cached_within_hit k v j c :
  cached_within k v j c ->
  call maxsize f k c = (Ok v, hit k v c).
Proof.
  intros (pre & post & E & Hpre & Hlen). unfold call.
  rewrite E at 1. by rewrite assoc_found.
Qed.

Lemma cached_within_calls k v (ks : list K) : forall j c,
  j + length ks < maxsize -> cached_within k v j c ->
  cached_within k v (j + length ks)
    (foldl (fun c k' => snd (call maxsize f k' c)) c ks).
Proof.
  induction ks as [|k' ks IH]; intros j c Hj Hc; simpl in *.
  - by rewrite Nat.add_0_r.
  - replace (j + S (length ks)) with (S j + length ks) by lia.
    apply IH; [lia|]. apply call_keeps; [lia|done].
Qed.

(** *** Every call returns what the function returns *)

Lemma consistent_empty : consistent f empty.
Proof. intros k v. done. Qed.

Lemma call_consistent k c :
  consistent f c ->
  fst (call maxsize f k c) = f k /\ consistent f (snd (call maxsize f k c)).
Proof.
  intros Hc. unfold call, hit, miss.
  destruct (assoc k (entries c)) as [v|] eqn:E; simpl.
  - split; [by rewrite (Hc k v E)|].
    intros k0 v0. simpl. case_decide as Hk.
    + subst k0. intros [= <-]. by apply Hc.
    + rewrite assoc_remove_ne by done. apply Hc.
  - destruct (f k) as [v|e] eqn:Ef; simpl; (split; [done|]); [|exact Hc].
    intros k0 v0 H0. apply assoc_take in H0. simpl in H0.
    case_decide as Hk; [|by apply Hc]. subst k0. by injection H0 as <-.
Qed.

Lemma calls_consistent (ks : list K) : forall c,
  consistent f c -> consistent f (foldl (fun c k' => snd (call maxsize f k' c)) c ks).
Proof.
  induction ks as [|k' ks IH]; intros c Hc; simpl; [done|].
  apply IH. by apply call_consistent.
Qed.

End LruCacheProperties.

Section CachedPredict.

Variable instances : nat -> InfoFilterPredictor result ndarray.

Lemma maxsize_pos : 0 < maxsize.
Proof. unfold maxsize. lia. Qed.

Lemma after_calls_foldl cs cache :
  after_calls instances cs cache
  = foldl (fun c k' => snd (functools.call maxsize (predict_body instances) k' c)) cache cs.
Proof. reflexivity. Qed.


End CachedPredict.



(** ** The store: what [predict] allocates and what it leaves alone *)

Section HeapProperties.

Import Heap HeapObjects.

Lemma grows_refl h : grows h h.
Proof. exists []. by rewrite app_nil_r. Qed.

Lemma grows_trans h1 h2 h3 : grows h1 h2 -> grows h2 h3 -> grows h1 h3.
Proof. intros [n1 ->] [n2 ->]. exists (n1 ++ n2). by rewrite app_assoc. Qed.

Lemma grows_length h h' : grows h h' -> length h <= length h'.
Proof. intros [new ->]. rewrite length_app. lia. Qed.

Lemma grows_lookup h h' b : grows h h' -> b < length h -> h' !! b = h !! b.
Proof. intros [new ->] Hb. by apply lookup_app_l. Qed.

Lemma grows_deref h h' a : grows h h' -> buf a < length h -> deref h' a = deref h a.
Proof. intros Hg Hb. unfold deref. by rewrite (grows_lookup h h'). Qed.

Lemma wp_bind {A B} (m : heap_m A) (k : A -> heap_m B) h Q :
  wp m h (fun a h1 => wp (k a) h1 Q) -> wp (m ≫= k) h Q.
Proof.
  unfold wp, mbind, heap_bind. destruct (m h) as [[a|e] h1]; [|done].
  intros [Hg H]. destruct (k a h1) as [[b|e] h2].
  - destruct H as [Hg' HQ]. split; [by eapply grows_trans|done].
  - by eapply grows_trans.
Qed.

Lemma wp_ret {A} (a : A) h (Q : A -> heap -> Prop) : Q a h -> wp (mret a) h Q.
Proof. intros H. split; [apply grows_refl|done]. Qed.

Lemma wp_throw {A} (e : exn) h (Q : A -> heap -> Prop) : wp (mthrow e) h Q.
Proof. apply grows_refl. Qed.

Lemma wp_alloc v h (Q : ref -> heap -> Prop) :
  (forall r h', grows h h' -> length h <= buf r < length h' -> Q r h') ->
  wp (alloc v) h Q.
Proof.
  intros H. unfold wp, alloc. split; [by exists [v]|].
  apply H; [by exists [v]|]. simpl. rewrite length_app. simpl. lia.
Qed.

Lemma wp_lift v h (Q : ref -> heap -> Prop) :
  (forall r h', grows h h' -> length h <= buf r < length h' -> Q r h') ->
  wp (lift v) h Q.
Proof.
  intros H. destruct v as [a|e].
  - by apply wp_alloc.
  - apply grows_refl.
Qed.

Lemma wp_lift1 f a h (Q : ref -> heap -> Prop) :
  (forall r h', grows h h' -> length h <= buf r < length h' -> Q r h') ->
  wp (lift1 f a) h Q.
Proof. intros H. by apply (wp_lift (f (deref h a))). Qed.

Lemma wp_lift2 f a b h (Q : ref -> heap -> Prop) :
  (forall r h', grows h h' -> length h <= buf r < length h' -> Q r h') ->
  wp (lift2 f a b) h Q.
Proof. intros H. by apply (wp_lift (f (deref h a) (deref h b))). Qed.

Lemma wp_view_T a h (Q : ref -> heap -> Prop) :
  (forall r, buf r = buf a -> Q r h) -> wp (view_T a) h Q.
Proof. intros H. apply wp_ret. by apply H. Qed.

Lemma wp_allocates_only {A} (m : heap_m A) h (Q : A -> heap -> Prop) :
  allocates_only m -> (forall a h', grows h h' -> Q a h') -> wp m h Q.
Proof.
  intros Hm H. unfold wp. pose proof (Hm h) as Hg.
  destruct (m h) as [[a|e] h']; simpl in Hg; [|done]. split; [done|by apply H].
Qed.

Lemma wp_getattr (name : State ref -> option ref) o h (Q : ref -> heap -> Prop) :
  (forall a, name o = Some a -> Q a h) -> wp (getattr name o) h Q.
Proof.
  intros H. unfold getattr. destruct (name o) as [a|].
  - apply wp_ret. by apply H.
  - apply wp_throw.
Qed.

Lemma wp_run {A} (m : heap_m A) h (Q : A -> heap -> Prop) :
  wp m h Q -> grows h (snd (m h)) /\ forall a, fst (m h) = Ok a -> Q a (snd (m h)).
Proof.
  unfold wp. destruct (m h) as [[a|e] h']; simpl.
  - intros [Hg HQ]. split; [done|]. by intros a' [= <-].
  - intros Hg. split; [done|]. done.
Qed.

Variable self : InfoFilterPredictor heap_m ref.
Local Abbreviation tm := (transition_model self).
Hypothesis tm_allocates_only : model_allocates_only tm.

Ltac grow_facts :=
  repeat match goal with
         | H : grows _ _ |- _ => apply grows_length in H
         end.

Ltac wp_step :=
  lazymatch goal with
  | |- wp (mbind _ _) _ _ => apply wp_bind
  | |- wp (lift2 _ _ _) _ _ => apply wp_lift2; intros ? ? ? ?
  | |- wp (lift1 _ _) _ _ => apply wp_lift1; intros ? ? ? ?
  | |- wp (alloc _) _ _ => apply wp_alloc; intros ? ? ? ?
  | |- wp (view_T _) _ _ => apply wp_view_T; intros ? ?
  | |- wp (getattr _ _) _ _ => apply wp_getattr; intros ? ?
  | |- wp (tm_matrix _ _ _ _) _ _ =>
      apply wp_allocates_only; [apply tm_allocates_only|intros ? ? ?]
  | |- wp (tm_covar _ _ _) _ _ =>
      apply wp_allocates_only; [apply tm_allocates_only|intros ? ? ?]
  | |- wp (mret _) _ _ => apply wp_ret
  | |- wp (mthrow _) _ _ => apply wp_throw
  | |- wp (if ?b then _ else _) _ _ => destruct b
  end.

(** The estimate [predict] returns is made of buffers allocated during
    the call. *)
Lemma predict_wp prior ts kw h :
  wp (predict self prior ts kw) h (fun r h' =>
    cls r = InformationStatePrediction
    /\ timestamp r = ts
    /\ Forall (fun b => length h <= b < length h') (storage r)).
Proof.
  unfold predict, _transition_function, _transition_matrix, _control_matrix,
    _noise_transition_matrix, control_input, cm_matrix, pass_time_interval.
    cbn [np_matmul np_add np_sub np_T np_inv np_identity np_ones np_zeros numpy].
  repeat wp_step.
  all: split_and!; try done.
  all: unfold storage; cbn [state_vector info_matrix covar app].
  all: grow_facts; repeat constructor; lia.
Qed.

End HeapProperties.

Section Frame.

Import Heap HeapObjects.

Lemma assoc_elem_of {K V} `{!EqDecision K} (k : K) (v : V) l :
  functools.assoc k l = Some v -> (k, v) ∈ l.
Proof.
  induction l as [|[k' v'] l IH]; simpl; [done|].
  case_decide as Hk.
  - intros [= <-]. subst k'. apply list_elem_of_here.
  - intros H. apply list_elem_of_further. by apply IH.
Qed.

Lemma elem_of_remove {K V} `{!EqDecision K} (k : K) (x : K * V) l :
  x ∈ functools.remove k l -> x ∈ l.
Proof.
  induction l as [|[k' v'] l IH]; simpl; [done|].
  case_decide as Hk.
  - intros H. apply list_elem_of_further. by apply IH.
  - intros H. apply elem_of_cons in H as [->|H].
    + apply list_elem_of_here.
    + apply list_elem_of_further. by apply IH.
Qed.

Lemma live_grows h h' bs : grows h h' -> live h bs -> live h' bs.
Proof.
  intros Hg Hl. apply grows_length in Hg. unfold live in *.
  eapply Forall_impl; [exact Hl|]. intros b Hb. simpl in Hb. lia.
Qed.

Variable instances : nat -> InfoFilterPredictor heap_m ref.
Hypothesis models_allocate_only :
  forall id, model_allocates_only (transition_model (instances id)).

(** The body of the method: the store grows, and the estimate is made of
    buffers allocated during the run. *)
Lemma predict_body_frame (c : call ref) h :
  live h (storage (call_prior c) ++ model_storage (instances (call_self c))) ->
  let out := predict_body instances c h in
  grows h (snd out)
  /\ forall r, fst out = Ok r ->
       estimate_of instances c r
       /\ Forall (fun b => length h <= b < length (snd out)) (storage r).
Proof.
  intros Hlive out.
  destruct (wp_run _ _ _
              (predict_wp (instances (call_self c)) (models_allocate_only _)
                 (call_prior c) (call_timestamp c) (call_kwargs c) h)) as [Hg Hr].
  fold (predict_body instances c) in Hg, Hr. fold out in Hg, Hr.
  split; [done|]. intros r E. destruct (Hr r E) as (Hc & Ht & Hfresh).
  split; [|done]. split; [done|]. split; [done|]. intros b Hb.
  pose proof (proj1 (Forall_forall _ _) Hfresh b Hb) as Hrange.
  unfold live in Hlive. rewrite Forall_app in Hlive. destruct Hlive as [Hp Hm].
  cbv beta in Hrange. split.
  - intros Hin. pose proof (proj1 (Forall_forall _ _) Hp b Hin) as Hlt.
    cbv beta in Hlt. lia.
  - intros Hin. pose proof (proj1 (Forall_forall _ _) Hm b Hin) as Hlt.
    cbv beta in Hlt. lia.
Qed.

(** C5 (amended): a call of [predict] writes into no buffer that exists
    when it is made, so the arrays of the prior, of the control model and
    of every other object read as before, whether the call returns or
    raises.  The estimate it returns is an [InformationStatePrediction]
    with the timestamp passed, and none of its buffers is a buffer of the
    prior or of the models.  Its buffers are allocated during the call,
    unless the call is served from the cache: then it is the estimate an
    earlier call with the same arguments built.  The entries of the cache
    keep these properties. *)
Theorem predict_frame (c : call ref) cache h :
  cache_ok instances h cache ->
  live h (storage (call_prior c) ++ model_storage (instances (call_self c))) ->
  let out := predict_cached_st instances c cache h in
  grows h (snd out)
  /\ (forall a, buf a < length h -> deref (snd out) a = deref h a)
  /\ cache_ok instances (snd out) (snd (fst out))
  /\ forall r, fst (fst out) = Ok r ->
       estimate_of instances c r
       /\ live (snd out) (storage r)
       /\ (functools.assoc c (functools.entries cache) = None ->
           forall b, b ∈ storage r -> length h <= b).
Proof.
  intros Hcache Hlive out.
  assert (grows h (snd out)
          /\ cache_ok instances (snd out) (snd (fst out))
          /\ forall r, fst (fst out) = Ok r ->
               estimate_of instances c r
               /\ live (snd out) (storage r)
               /\ (functools.assoc c (functools.entries cache) = None ->
                   forall b, b ∈ storage r -> length h <= b)) as (Hg & Hok & Hres).
  { unfold out, predict_cached_st, functools.call_st.
    destruct (functools.assoc c (functools.entries cache)) as [v|] eqn:E.
    - cbn [fst snd]. apply assoc_elem_of in E.
      destruct (Hcache c v E) as [Hest Hlv].
      split; [apply grows_refl|]. split.
      + intros c' r' Hin. cbn [functools.hit functools.entries] in Hin.
        apply elem_of_cons in Hin as [[= -> ->]|Hin]; [done|].
        apply Hcache. by eapply elem_of_remove.
      + intros r [= <-]. done.
    - pose proof (predict_body_frame c h Hlive) as [Hg Hr]. cbv zeta in Hg, Hr.
      destruct (predict_body instances c h) as [res h'] eqn:Eb. cbn [fst snd] in *.
      split; [done|]. split.
      + intros c' r' Hin. destruct res as [r|e]; cbn [functools.miss functools.entries] in Hin.
        * apply subseteq_take in Hin. apply elem_of_cons in Hin as [[= -> ->]|Hin].
          -- destruct (Hr r eq_refl) as [Hest Hfresh]. split; [done|].
             unfold live. eapply Forall_impl; [exact Hfresh|]. intros b Hb. simpl in Hb. lia.
          -- destruct (Hcache c' r' Hin) as [Hest Hlv]. split; [done|].
             by eapply live_grows.
        * destruct (Hcache c' r' Hin) as [Hest Hlv]. split; [done|].
          by eapply live_grows.
      + intros r ->. destruct (Hr r eq_refl) as [Hest Hfresh].
        split; [done|]. split.
        * unfold live. eapply Forall_impl; [exact Hfresh|]. intros b Hb. simpl in Hb. lia.
        * intros _ b Hb. pose proof (proj1 (Forall_forall _ _) Hfresh b Hb) as Hrange.
          cbv beta in Hrange. lia. }
  split; [done|]. split; [|done].
  intros a Ha. by apply grows_deref.
Qed.

End Frame.

Lemma alloc_allocates_only v : Heap.allocates_only (Heap.alloc v).
Proof. intros h. by exists [v]. Qed.

Lemma cache_ok_empty instances h :
  HeapObjects.cache_ok instances h functools.empty.
Proof. intros c r Hin. by apply elem_of_nil in Hin. Qed.

Lemma predict_frame_witness :
  let c := mkCall 0 cv_heap_prior (Some 1%Z) [] in
  let out := HeapObjects.predict_cached_st cv_heap_instances c functools.empty cv_heap in
  Heap.grows cv_heap (snd out)
  /\ (forall a, Heap.buf a < length cv_heap -> Heap.deref (snd out) a = Heap.deref cv_heap a)
  /\ HeapObjects.cache_ok cv_heap_instances (snd out) (snd (fst out))
  /\ forall r, fst (fst out) = Ok r ->
       HeapObjects.estimate_of cv_heap_instances c r
       /\ HeapObjects.live (snd out) (HeapObjects.storage r)
       /\ (functools.assoc c (functools.entries (functools.empty (V := State Heap.ref))) = None ->
           forall b, b ∈ HeapObjects.storage r -> length cv_heap <= b).
Proof.
  apply (predict_frame cv_heap_instances).
  - intros id. split; intros; apply alloc_allocates_only.
  - apply cache_ok_empty.
  - repeat constructor; simpl; lia.
Defined.

(** C5 as stated fails for a call served from the cache: the second of
    two calls with the same arguments returns the object the first call
    built, whose buffers are in the store before the second call, and
    allocates nothing. *)
Lemma predict_cached_same_object :
  let c := mkCall 0 cv_heap_prior (Some 1%Z) [] in
  let out1 := HeapObjects.predict_cached_st cv_heap_instances c functools.empty cv_heap in
  let out2 := HeapObjects.predict_cached_st cv_heap_instances c (snd (fst out1)) (snd out1) in
  exists r,
    fst (fst out1) = Ok r
    /\ fst (fst out2) = Ok r
    /\ snd out2 = snd out1
    /\ HeapObjects.live (snd out1) (HeapObjects.storage r).
Proof.
  cbn zeta.
  exists (mkState InformationStatePrediction (Heap.Ref 38 false) (Some (Heap.Ref 30 false))
            None (Some 1%Z)).
  split_and!; [vm_decide|vm_decide|vm_decide|].
  unfold HeapObjects.live. vm_decide.
Qed.

(** The run of the sample: the estimate occupies the buffers 38 and 30 of
    a store of 39 buffers, and reads as the estimate computed on values. *)
Lemma cv_heap_prediction :
  let out := predict cv_heap_predictor cv_heap_prior (Some 1%Z) [] cv_heap in
  fst out
  = Ok (mkState InformationStatePrediction (Heap.Ref 38 false) (Some (Heap.Ref 30 false))
          None (Some 1%Z))
  /\ length (snd out) = 39
  /\ take 5 (snd out) = cv_heap
  /\ Heap.deref (snd out) (Heap.Ref 38 false) = state_vector cv_prediction_result
  /\ Some (Heap.deref (snd out) (Heap.Ref 30 false)) = info_matrix cv_prediction_result.
Proof. cbn zeta. split_and!; vm_decide. Qed.

(** ** Particles *)

Section Particles.

Import ParticleTypes.

Lemma clear_parent_other_attributes o :
  class (clear_parent o) = class o
  /\ state_vector (clear_parent o) = state_vector o
  /\ weight (clear_parent o) = weight o
  /\ dynamic_model (clear_parent o) = dynamic_model o.
Proof. done. Qed.

Lemma store_alter_append (st : store) p o new :
  st !! p = Some o ->
  (alter clear_parent p st ++ [new]) !! p = Some (clear_parent o)
  /\ (alter clear_parent p st ++ [new]) !! length (alter clear_parent p st) = Some new
  /\ length (alter clear_parent p st) <> p
  /\ forall q, q <> p -> q < length st ->
       (alter clear_parent p st ++ [new]) !! q = st !! q.
Proof.
  intros Hp. pose proof (lookup_lt_Some _ _ _ Hp) as Hlt.
  assert (length (alter clear_parent p st) = length st) as Hlen by apply length_alter.
  split_and!.
  - rewrite lookup_app_l by lia. rewrite list_lookup_alter_eq. by rewrite Hp.
  - rewrite lookup_app_r by lia. by rewrite Nat.sub_diag.
  - lia.
  - intros q0 Hne Hq. rewrite lookup_app_l by lia. by rewrite list_lookup_alter_ne.
Qed.

(** C10: constructing a [Particle] or a [MultiModelParticle] with a parent
    sets the attribute [parent] of that parent object to [None] (its other
    attributes stay), and the new object refers to the parent; no other
    object of the store changes. *)
Theorem init_clears_parent state_vector' weight' dynamic_model' (st : store) p o :
  st !! p = Some o ->
  (let '(new, st') := Particle_init state_vector' weight' (Some p) st in
   st' !! p = Some (clear_parent o)
   /\ parent (clear_parent o) = None
   /\ st' !! new = Some (mkObject Particle (convert state_vector') weight' None (Some p))
   /\ new <> p
   /\ forall q, q <> p -> q < length st -> st' !! q = st !! q)
  /\ (let '(new, st') :=
        MultiModelParticle_init state_vector' weight' dynamic_model' (Some p) st in
      st' !! p = Some (clear_parent o)
      /\ parent (clear_parent o) = None
      /\ st' !! new
         = Some (mkObject MultiModelParticle (convert state_vector') weight'
                   (Some dynamic_model') (Some p))
      /\ new <> p
      /\ forall q, q <> p -> q < length st -> st' !! q = st !! q).
Proof.
  intros Hp. unfold Particle_init, MultiModelParticle_init, setattr_parent_None, truth.
  split.
  - destruct (store_alter_append st p o
                (mkObject Particle (convert state_vector') weight' None (Some p)) Hp)
      as (H1 & H2 & H3 & H4).
    done.
  - destruct (store_alter_append st p o
                (mkObject MultiModelParticle (convert state_vector') weight'
                   (Some dynamic_model') (Some p)) Hp)
      as (H1 & H2 & H3 & H4).
    done.
Qed.

End Particles.

Lemma init_clears_parent_witness :
  let st := two_particles in
  let o := ParticleTypes.mkObject ParticleTypes.Particle (Some [qz 1]) (q 1 2) None (Some 0) in
  (let '(new, st') :=
     ParticleTypes.Particle_init (ParticleTypes.Sequence [qz 2]) (q 1 4) (Some 1) st in
   st' !! 1 = Some (ParticleTypes.clear_parent o)
   /\ ParticleTypes.parent (ParticleTypes.clear_parent o) = None
   /\ st' !! new
      = Some (ParticleTypes.mkObject ParticleTypes.Particle
                (ParticleTypes.convert (ParticleTypes.Sequence [qz 2])) (q 1 4) None (Some 1))
   /\ new <> 1
   /\ forall q, q <> 1 -> q < length st -> st' !! q = st !! q)
  /\ (let '(new, st') :=
        ParticleTypes.MultiModelParticle_init (ParticleTypes.Sequence [qz 2]) (q 1 4) 3%Z
          (Some 1) st in
      st' !! 1 = Some (ParticleTypes.clear_parent o)
      /\ ParticleTypes.parent (ParticleTypes.clear_parent o) = None
      /\ st' !! new
         = Some (ParticleTypes.mkObject ParticleTypes.MultiModelParticle
                   (ParticleTypes.convert (ParticleTypes.Sequence [qz 2])) (q 1 4)
                   (Some 3%Z) (Some 1))
      /\ new <> 1
      /\ forall q, q <> 1 -> q < length st -> st' !! q = st !! q).
Proof.
  apply (init_clears_parent (ParticleTypes.Sequence [qz 2]) (q 1 4) 3%Z two_particles 1).
  reflexivity.
Defined.

(** The run of the sample: the parent at address 1 loses its own parent. *)
Lemma init_sample :
  ParticleTypes.Particle_init (ParticleTypes.Sequence [qz 2]) (q 1 4) (Some 1) two_particles
  = (2,
     [ParticleTypes.mkObject ParticleTypes.Particle (Some [qz 0]) (q 1 2) None None;
      ParticleTypes.mkObject ParticleTypes.Particle (Some [qz 1]) (q 1 2) None None;
      ParticleTypes.mkObject ParticleTypes.Particle (Some [qz 2]) (q 1 4) None (Some 1)]).
Proof. reflexivity. Qed.

(** * Further properties *)

(** ** Products and sums of arrays *)

Section ArrayAlgebra.

Local Open Scope Qc_scope.

Lemma row_of_zeros r c i : forall k, nth k (row_of (zeros r c) i) 0 = 0.
Proof.
  intros k. unfold row_of. cbn [ncols zeros tabulate].
  destruct (decide (k < c)%nat) as [Hk|Hk].
  - rewrite nth_map_seq by done.
    destruct (decide (i < r)%nat).
    + unfold zeros. by rewrite get_tabulate.
    + unfold zeros. apply get_tabulate_outside. lia.
  - apply nth_overflow. rewrite length_map, length_seq. lia.
Qed.

Lemma col_of_zeros r c j : forall k, nth k (col_of (zeros r c) j) 0 = 0.
Proof.
  intros k. unfold col_of. cbn [nrows zeros tabulate].
  destruct (decide (k < r)%nat) as [Hk|Hk].
  - rewrite nth_map_seq by done.
    destruct (decide (j < c)%nat).
    + unfold zeros. by rewrite get_tabulate.
    + unfold zeros. apply get_tabulate_outside. lia.
  - apply nth_overflow. rewrite length_map, length_seq. lia.
Qed.

Lemma mmul_zeros_l r c B : mmul (zeros r c) B = zeros r (ncols B).
Proof.
  unfold mmul. cbn [nrows zeros tabulate]. unfold zeros.
  apply tabulate_ext. intros i j _ _.
  rewrite dot_comm. apply dot_zero_r, row_of_zeros.
Qed.

Lemma mmul_zeros_r A r c : mmul A (zeros r c) = zeros (nrows A) c.
Proof.
  unfold mmul. cbn [ncols zeros tabulate]. unfold zeros.
  apply tabulate_ext. intros i j _ _.
  apply dot_zero_r, col_of_zeros.
Qed.

Lemma transpose_zeros r c : transpose (zeros r c) = zeros c r.
Proof.
  unfold transpose. cbn [nrows ncols zeros tabulate]. unfold zeros.
  apply tabulate_ext. intros i j Hi Hj. by rewrite get_tabulate.
Qed.

Lemma transpose_identity n : transpose (identity n) = identity n.
Proof.
  unfold transpose. cbn [nrows ncols identity tabulate]. unfold identity.
  apply tabulate_ext. intros i j Hi Hj. rewrite get_tabulate by done.
  repeat case_decide; done || lia.
Qed.

Lemma bget_same A B i j :
  nrows A = nrows B -> ncols A = ncols B ->
  (i < nrows A)%nat -> (j < ncols A)%nat ->
  bget A i j = get A i j /\ bget B i j = get B i j.
Proof.
  intros Hr Hc Hi Hj. unfold bget. rewrite <- Hr, <- Hc.
  assert ((if decide (nrows A = 1%nat) then 0%nat else i) = i) as -> by (case_decide; lia).
  assert ((if decide (ncols A = 1%nat) then 0%nat else j) = j) as -> by (case_decide; lia).
  done.
Qed.

(** Adding or subtracting the zero array of the same shape changes
    nothing. *)
Lemma zip_zeros_r f A r c :
  (forall x, f x 0 = x) -> tabulated A -> nrows A = r -> ncols A = c ->
  zip_broadcast f A (zeros r c) = A.
Proof.
  intros Hf HA Hr Hc.
  transitivity (tabulate (nrows A) (ncols A) (get A)); [|by symmetry].
  unfold zip_broadcast.
  cbn [nrows ncols zeros tabulate]. rewrite Hr, Hc, !broadcast_dim_same.
  apply tabulate_ext. intros i j Hi Hj.
  destruct (bget_same A (zeros r c) i j) as [-> ->]; try (cbn; lia).
  unfold zeros. by rewrite get_tabulate.
Qed.

Lemma zip_zeros_zeros f r c :
  f 0 0 = 0 -> zip_broadcast f (zeros r c) (zeros r c) = zeros r c.
Proof.
  intros Hf. unfold zip_broadcast. cbn [nrows ncols zeros tabulate].
  rewrite !broadcast_dim_same. unfold zeros at 3.
  apply tabulate_ext. intros i j Hi Hj.
  destruct (bget_same (zeros r c) (zeros r c) i j) as [-> _]; try (cbn; lia).
  unfold zeros. by rewrite get_tabulate.
Qed.

Lemma tabulated_zip f A B : tabulated (zip_broadcast f A B).
Proof. apply tabulated_tabulate. Qed.

End ArrayAlgebra.

(** ** The outcomes of [predict] *)

Section Outcomes.

Variable self : InfoFilterPredictor result ndarray.
Local Abbreviation tm := (transition_model self).
Local Abbreviation cm := (control_model self).

Variables (prior : State ndarray) (ts : option Z) (kw : kwargs).
Variables (F1 F Q Y : ndarray).

Local Abbreviation dt := (_predict_over_interval prior ts).
Local Abbreviation n := (ndim_state tm).

Hypothesis kw_ok : "time_interval"%string ∉ kw.*1.
Hypothesis model_F1 : tm_matrix tm None dt kw = Ok F1.
Hypothesis model_F : tm_matrix tm (Some prior) dt kw = Ok F.
Hypothesis model_Q : tm_covar tm dt kw = Ok Q.
Hypothesis prior_Y : Spec.second_moment prior = Some Y.
Hypothesis shapes :
  Spec.well_shaped n F1 F Q Y (state_vector prior)
    (control_vector cm) (control_matrix cm) (control_noise cm).
Hypothesis model_ndim : ndim tm = n.

Ltac shape :=
  repeat first
    [ progress autorewrite with shape
    | match goal with
      | H : nrows _ = _ |- _ => rewrite H
      | H : ncols _ = _ |- _ => rewrite H
      end ];
  done.

Ltac step_matmul :=
  lazymatch goal with
  | |- mbind _ (Pure.matmul ?A ?B) = _ =>
      rewrite (matmul_shape A B) by shape; cbn [mbind result_bind]
  end.
Ltac step_add :=
  lazymatch goal with
  | |- mbind _ (Pure.elementwise ?f ?A ?B) = _ =>
      rewrite (elementwise_shape f A B) by shape; cbn [mbind result_bind]
  end.

Ltac step_inv E :=
  lazymatch goal with
  | |- mbind _ (Pure.inv ?A) = _ =>
      let E' := fresh in
      assert (Pure.inv A = Ok _) as E' by (unfold Pure.inv; rewrite E; reflexivity);
      rewrite E'; clear E'; cbn [mbind result_bind]
  end.

(* Runs [predict] up to its first call of [inv]. *)
Ltac start :=
  let HY := fresh in
  pose proof prior_Y as HY; rewrite <- selected_second_moment in HY;
  unfold predict, _transition_function, _transition_matrix, _control_matrix,
    _noise_transition_matrix, control_input, cm_matrix, pass_time_interval;
  rewrite bool_decide_eq_false_2 by done;
  rewrite model_F1, model_F, model_Q;
  replace (if is_information prior then getattr info_matrix prior
           else getattr covar prior) with (@Ok ndarray Y)
    by (unfold getattr; destruct (is_information prior); by rewrite HY);
  cbn [mbind result_bind mret result_ret np_matmul np_add np_sub np_T np_inv
       np_identity np_ones np_zeros Pure.numpy];
  step_matmul; step_add; step_matmul; step_matmul; step_add;
  step_matmul; step_matmul; step_add.

(** The run of [predict] on arrays of the shapes of the state
    dimension: the four calls of [inv] decide its outcome. *)
Lemma predict_run :
  predict self prior ts kw
  = match inverse (transpose F) with
    | None => Raise LinAlgError
    | Some iFT =>
        match inverse F with
        | None => Raise LinAlgError
        | Some iF =>
            match inverse Q with
            | None => Raise LinAlgError
            | Some iQ =>
                let G := identity n in
                let M := Spec.M iFT Y iF in
                let Sigma := Spec.Sigma G M iQ in
                match inverse Sigma with
                | None => Raise LinAlgError
                | Some iSigma =>
                    let Omega := Spec.Omega G M iSigma in
                    Ok (mkState InformationStatePrediction
                          (madd (mmul (mmul (msub (ones n n) (mmul Omega (transpose G))) iFT)
                                      (state_vector prior))
                                (mmul Y (control_vector cm)))
                          (Some (Spec.Y_pred M Omega Sigma)) None ts)
                end
            end
        end
    end.
Proof.
  destruct shapes as ((F1r & F1c) & (Fr & Fc) & (Qr & Qc') & (Yr & Yc) & (yr & yc)
                      & (ur & uc) & Br & (Nr & Nc)).
  destruct (inverse (transpose F)) as [iFT|] eqn:EiFT;
    [destruct (inverse F) as [iF|] eqn:EiF;
     [destruct (inverse Q) as [iQ|] eqn:EiQ|]|].
  { cbn zeta.
    destruct (inverse (Spec.Sigma (identity n) (Spec.M iFT Y iF) iQ)) as [iS|] eqn:EiS.
    { by apply (predict_returns self prior ts kw F1 F Q Y iFT iF iQ iS). }
    start.
    destruct (inverse_shape_n _ _ n EiFT) as [iFTr iFTc]; [shape|].
    destruct (inverse_shape_n _ _ n EiF) as [iFr iFc]; [shape|].
    destruct (inverse_shape_n _ _ n EiQ) as [iQr iQc]; [shape|].
    step_inv EiFT. step_matmul. step_inv EiF.
    step_matmul. step_matmul. step_matmul. step_inv EiQ.
    step_add. step_matmul.
    unfold Spec.Sigma, Spec.M, madd in EiS.
    unfold Pure.inv. by rewrite EiS. }
  { start.
    destruct (inverse_shape_n _ _ n EiFT) as [iFTr iFTc]; [shape|].
    destruct (inverse_shape_n _ _ n EiF) as [iFr iFc]; [shape|].
    step_inv EiFT. step_matmul. step_inv EiF.
    step_matmul. step_matmul. step_matmul.
    unfold Pure.inv. by rewrite EiQ. }
  { start.
    destruct (inverse_shape_n _ _ n EiFT) as [iFTr iFTc]; [shape|].
    step_inv EiFT. step_matmul.
    unfold Pure.inv. by rewrite EiF. }
  { start. unfold Pure.inv. by rewrite EiFT. }
Qed.

(** What a returning call has computed. *)
Lemma predict_outcome_Ok r :
  predict self prior ts kw = Ok r ->
  exists iFT iF iQ iSigma,
    inverse (transpose F) = Some iFT /\ inverse F = Some iF /\ inverse Q = Some iQ
    /\ (nrows iFT = n /\ ncols iFT = n) /\ (nrows iF = n /\ ncols iF = n)
    /\ (nrows iQ = n /\ ncols iQ = n)
    /\ let M := Spec.M iFT Y iF in
       let Sigma := madd M iQ in
       let Omega := mmul M iSigma in
       inverse Sigma = Some iSigma
       /\ (nrows iSigma = n /\ ncols iSigma = n)
       /\ r = mkState InformationStatePrediction
                (madd (mmul (mmul (msub (ones n n) Omega) iFT) (state_vector prior))
                      (mmul Y (control_vector cm)))
                (Some (msub M (mmul (mmul Omega Sigma) (transpose Omega)))) None ts.
Proof.
  rewrite predict_run.
  destruct shapes as ((F1r & F1c) & (Fr & Fc) & (Qr & Qc') & (Yr & Yc) & (yr & yc)
                      & (ur & uc) & Br & (Nr & Nc)).
  destruct (inverse (transpose F)) as [iFT|] eqn:EiFT; [|done].
  destruct (inverse F) as [iF|] eqn:EiF; [|done].
  destruct (inverse Q) as [iQ|] eqn:EiQ; [|done].
  cbn zeta.
  destruct (inverse_shape_n _ _ n EiFT) as [iFTr iFTc]; [shape|].
  destruct (inverse_shape_n _ _ n EiF) as [iFr iFc]; [shape|].
  destruct (inverse_shape_n _ _ n EiQ) as [iQr iQc]; [shape|].
  rewrite (Sigma_identity n) by done.
  destruct (inverse (madd (Spec.M iFT Y iF) iQ)) as [iS|] eqn:EiS; [|done].
  destruct (inverse_shape_n _ _ n EiS) as [iSr iSc]; [unfold Spec.M, madd; shape|].
  rewrite (Omega_identity n) by done.
  intros [= <-]. exists iFT, iF, iQ, iS. cbn zeta.
  split_and!; try first [assumption | reflexivity].
  unfold Spec.Y_pred.
  rewrite transpose_identity.
  replace (identity n) with (identity (ncols (mmul (Spec.M iFT Y iF) iS)))
    by (f_equal; shape).
  rewrite mmul_identity_r by apply tabulated_mmul.
  reflexivity.
Qed.

(** With arrays of the shapes of the state dimension, [predict] returns
    the estimate or raises [LinAlgError], and no other exception: it
    returns when [inv] succeeds on [F.T], [F], [Q] and [Sigma], and
    raises when one of the four is singular. *)
Theorem predict_outcome :
  match predict self prior ts kw with
  | Ok r =>
      exists iFT iF iQ iSigma,
        inverse (transpose F) = Some iFT /\ inverse F = Some iF /\ inverse Q = Some iQ
        /\ let M := Spec.M iFT Y iF in
           let Sigma := madd M iQ in
           let Omega := mmul M iSigma in
           inverse Sigma = Some iSigma
           /\ r = mkState InformationStatePrediction
                    (madd (mmul (mmul (msub (ones n n) Omega) iFT) (state_vector prior))
                          (mmul Y (control_vector cm)))
                    (Some (msub M (mmul (mmul Omega Sigma) (transpose Omega)))) None ts
  | Raise e =>
      e = LinAlgError
      /\ (inverse (transpose F) = None
          \/ inverse F = None
          \/ inverse Q = None
          \/ exists iFT iF iQ,
               inverse (transpose F) = Some iFT /\ inverse F = Some iF
               /\ inverse Q = Some iQ
               /\ inverse (madd (Spec.M iFT Y iF) iQ) = None)
  end.
Proof.
  destruct (predict self prior ts kw) as [r|e] eqn:E.
  - destruct (predict_outcome_Ok r E)
      as (iFT & iF & iQ & iS & EiFT & EiF & EiQ & _ & _ & _ & EiS & _ & ->).
    by exists iFT, iF, iQ, iS.
  - rewrite predict_run in E.
    destruct (inverse (transpose F)) as [iFT|] eqn:EiFT; [|split; [congruence|by left]].
    destruct (inverse F) as [iF|] eqn:EiF; [|split; [congruence|by right; left]].
    destruct (inverse Q) as [iQ|] eqn:EiQ; [|split; [congruence|by right; right; left]].
    cbn zeta in E.
    destruct shapes as (_ & (Fr & Fc) & _).
    destruct (inverse_shape_n _ _ n EiFT) as [iFTr iFTc]; [by rewrite nrows_transpose|].
    destruct (inverse_shape_n _ _ n EiF) as [iFr iFc]; [done|].
    rewrite (Sigma_identity n) in E by done.
    destruct (inverse (madd (Spec.M iFT Y iF) iQ)) as [iS|] eqn:EiS; [done|].
    split; [congruence|]. right; right; right. by exists iFT, iF, iQ.
Qed.

(** A returned estimate can be the prior of a next call: its class is in
    information form, its vector is n-by-1 and its information matrix
    n-by-n, and its timestamp is the target timestamp. *)
Theorem predict_chains r :
  predict self prior ts kw = Ok r ->
  is_information r = true
  /\ timestamp r = ts
  /\ exists Y', Spec.second_moment r = Some Y'
      /\ Spec.well_shaped n F1 F Q Y' (state_vector r)
           (control_vector cm) (control_matrix cm) (control_noise cm).
Proof.
  intros Hr.
  destruct (predict_outcome_Ok r Hr)
    as (iFT & iF & iQ & iS & EiFT & EiF & EiQ & (iFTr & iFTc) & (iFr & iFc) & (iQr & iQc)
        & EiS & (iSr & iSc) & ->).
  destruct shapes as ((F1r & F1c) & (Fr & Fc) & (Qr & Qc') & (Yr & Yc) & (yr & yc)
                      & (ur & uc) & Br & (Nr & Nc)).
  split; [done|]. split; [done|].
  eexists. split; [reflexivity|].
  cbn [state_vector].
  unfold Spec.well_shaped, Spec.M, madd, msub. split_and!; try done; shape.
Qed.

(** A prior that holds no information (a zero second moment) gives a
    prediction that holds none. *)
Theorem predict_no_information r :
  Y = zeros n n ->
  predict self prior ts kw = Ok r ->
  info_matrix r = Some (zeros n n).
Proof.
  intros HY Hr.
  destruct (predict_outcome_Ok r Hr)
    as (iFT & iF & iQ & iS & EiFT & EiF & EiQ & (iFTr & iFTc) & (iFr & iFc) & (iQr & iQc)
        & EiS & (iSr & iSc) & ->).
  cbn [info_matrix]. f_equal.
  assert (Spec.M iFT Y iF = zeros n n) as HM.
  { unfold Spec.M. rewrite HY, mmul_zeros_r, mmul_zeros_l. by rewrite iFTr, iFc. }
  rewrite HM, !mmul_zeros_l. cbn [ncols transpose tabulate nrows zeros].
  by apply zip_zeros_zeros.
Qed.

(** With the zero control input, as in the control model that
    [__init__] builds when none is given, the control term vanishes from
    the returned vector. *)
Theorem predict_no_control_term r :
  control_vector cm = zeros n 1 ->
  predict self prior ts kw = Ok r ->
  exists iFT iF iQ iSigma,
    inverse (transpose F) = Some iFT /\ inverse F = Some iF /\ inverse Q = Some iQ
    /\ let M := Spec.M iFT Y iF in
       inverse (madd M iQ) = Some iSigma
       /\ state_vector r
          = mmul (mmul (msub (ones n n) (mmul M iSigma)) iFT) (state_vector prior).
Proof.
  intros Hu Hr.
  destruct (predict_outcome_Ok r Hr)
    as (iFT & iF & iQ & iS & EiFT & EiF & EiQ & (iFTr & iFTc) & (iFr & iFc) & (iQr & iQc)
        & EiS & (iSr & iSc) & ->).
  destruct shapes as ((F1r & F1c) & (Fr & Fc) & (Qr & Qc') & (Yr & Yc) & (yr & yc)
                      & (ur & uc) & Br & (Nr & Nc)).
  exists iFT, iF, iQ, iS. cbn zeta. split_and!; try done.
  cbn [state_vector]. rewrite Hu, mmul_zeros_r, Yr.
  apply zip_zeros_r.
  - intros x. ring.
  - apply tabulated_mmul.
  - unfold Spec.M, msub. shape.
  - shape.
Qed.

(** The all-ones array is built with the transition model's [ndim], the
    noise transition matrix with its [ndim_state]: when the two differ
    (and neither is 1, which numpy would broadcast), the call raises
    numpy's [ValueError] at the subtraction, after all four inverses have
    been computed. *)
Theorem predict_ndim_mismatch iFT iF iQ iSigma m :
  ndim tm = m -> m <> n -> m <> 1 -> n <> 1 ->
  inverse (transpose F) = Some iFT -> inverse F = Some iF -> inverse Q = Some iQ ->
  inverse (Spec.Sigma (identity n) (Spec.M iFT Y iF) iQ) = Some iSigma ->
  predict self prior ts kw = Raise ValueError.
Proof.
  clear model_ndim.
  intros Hm Hmn Hm1 Hn1 EiFT EiF EiQ EiS.
  destruct shapes as ((F1r & F1c) & (Fr & Fc) & (Qr & Qc') & (Yr & Yc) & (yr & yc)
                      & (ur & uc) & Br & (Nr & Nc)).
  start. rewrite Hm.
  destruct (inverse_shape_n _ _ n EiFT) as [iFTr iFTc]; [shape|].
  destruct (inverse_shape_n _ _ n EiF) as [iFr iFc]; [shape|].
  destruct (inverse_shape_n _ _ n EiQ) as [iQr iQc]; [shape|].
  step_inv EiFT. step_matmul. step_inv EiF.
  step_matmul. step_matmul. step_matmul. step_inv EiQ.
  step_add. step_matmul.
  unfold Spec.Sigma, Spec.M, madd in EiS.
  destruct (inverse_shape_n _ _ n EiS) as [iSr iSc]; [shape|].
  step_inv EiS.
  step_matmul. step_matmul. step_matmul. step_add. step_matmul.
  lazymatch goal with
  | |- mbind _ (Pure.elementwise ?f ?A ?B) = _ =>
      assert (Pure.elementwise f A B = Raise ValueError) as ->
  end; [|reflexivity].
  unfold Pure.elementwise, broadcast2. rewrite decide_False; [done|].
  intros [Hb _]. revert Hb. unfold broadcastable. cbn [nrows ones tabulate].
  autorewrite with shape. intros Hb. lia.
Qed.

End Outcomes.

(** ** What [predict] reads of the prior and of the control model *)

Section Reads.

Lemma selected_getattr (prior : State ndarray) :
  (if is_information prior then getattr info_matrix prior else getattr covar prior)
  = match Spec.second_moment prior with
    | Some Y => Ok Y
    | None => Raise AttributeError
    end.
Proof.
  rewrite <- selected_second_moment. unfold getattr.
  by destruct (is_information prior).
Qed.

(** [predict] reads of the prior its vector, its timestamp and the
    second moment selected by its class, and hands the prior to the
    transition model: two priors that agree on these give the same
    outcome.  So the covariance of a Gaussian prior is used exactly as
    the information matrix of an information-form prior would be. *)
Theorem predict_prior_attributes (self : InfoFilterPredictor result ndarray)
    (p1 p2 : State ndarray) ts kw :
  state_vector p1 = state_vector p2 ->
  timestamp p1 = timestamp p2 ->
  Spec.second_moment p1 = Spec.second_moment p2 ->
  (forall dt, tm_matrix (transition_model self) (Some p1) dt kw
              = tm_matrix (transition_model self) (Some p2) dt kw) ->
  predict self p1 ts kw = predict self p2 ts kw.
Proof.
  intros Hv Ht HY Hm.
  unfold predict, _transition_function, _transition_matrix, _predict_over_interval.
  rewrite !selected_getattr, Hv, Ht, HY, Hm. reflexivity.
Qed.

(** The control matrix and the control noise enter the discarded
    [p_pred] only: two predictors with the zero control input that
    differ in them alone return the same estimate whenever both
    return. *)
Theorem predict_ignores_control_matrix (tm : TransitionModel result ndarray)
    (cm cm' : LinearControlModel ndarray) prior ts kw r r' :
  control_vector cm = zeros (ndim_state tm) 1 ->
  control_vector cm' = zeros (ndim_state tm) 1 ->
  predict (mkInfoFilterPredictor tm cm) prior ts kw = Ok r ->
  predict (mkInfoFilterPredictor tm cm') prior ts kw = Ok r' ->
  r = r'.
Proof.
  intros Hu Hu' Hr Hr'.
  apply predict_Ok_inv in Hr
    as (F1 & F & Q & Y & iFT & iF & iQ & iS & _ & HF & HQ & HY & EiFT & EiF & EiQ & EiS & ->).
  apply predict_Ok_inv in Hr'
    as (F1' & F' & Q' & Y' & iFT' & iF' & iQ' & iS' & _ & HF' & HQ' & HY'
        & EiFT' & EiF' & EiQ' & EiS' & ->).
  cbn [transition_model control_model] in *.
  assert (F' = F) as -> by congruence.
  assert (Q' = Q) as -> by congruence.
  assert (Y' = Y) as -> by congruence.
  assert (iFT' = iFT) as -> by congruence.
  assert (iF' = iF) as -> by congruence.
  assert (iQ' = iQ) as -> by congruence.
  assert (iS' = iS) as -> by congruence.
  by rewrite Hu, Hu'.
Qed.

(** Yet the discarded [p_pred] is computed: a control noise whose shape
    does not fit the control matrix makes [predict] raise numpy's
    [ValueError], whatever the other arrays are. *)
Theorem predict_control_noise_mismatch (self : InfoFilterPredictor result ndarray)
    prior ts kw F1 F Q Y :
  let tm := transition_model self in
  let cm := control_model self in
  let dt := _predict_over_interval prior ts in
  let n := ndim_state tm in
  "time_interval"%string ∉ kw.*1 ->
  tm_matrix tm None dt kw = Ok F1 ->
  tm_matrix tm (Some prior) dt kw = Ok F ->
  tm_covar tm dt kw = Ok Q ->
  Spec.second_moment prior = Some Y ->
  (nrows F1 = n /\ ncols F1 = n) -> (nrows F = n /\ ncols F = n) ->
  (nrows Q = n /\ ncols Q = n) -> (nrows Y = n /\ ncols Y = n) ->
  (nrows (state_vector prior) = n /\ ncols (state_vector prior) = 1) ->
  (nrows (control_vector cm) = n /\ ncols (control_vector cm) = 1) ->
  ncols (control_matrix cm) <> nrows (control_noise cm) ->
  predict self prior ts kw = Raise ValueError.
Proof.
  intros tm cm dt n Hkw HF1 HF HQ HY [F1r F1c] [Fr Fc] [Qr Qc'] [Yr Yc] [yr yc] [ur uc] HB.
  unfold predict, _transition_function, _transition_matrix, _control_matrix,
    _noise_transition_matrix, control_input, cm_matrix, pass_time_interval.
  rewrite bool_decide_eq_false_2 by done.
  fold tm cm dt. rewrite HF1, HF, HQ, !selected_getattr, HY.
  cbn [mbind result_bind mret result_ret np_matmul np_add np_sub np_T np_inv
       np_identity np_ones np_zeros Pure.numpy].
  rewrite (matmul_shape F1) by congruence. cbn [mbind result_bind].
  rewrite elementwise_shape by (autorewrite with shape; congruence).
  cbn [mbind result_bind].
  rewrite (matmul_shape F Y) by congruence. cbn [mbind result_bind].
  rewrite (matmul_shape (mmul F Y)) by (autorewrite with shape; congruence).
  cbn [mbind result_bind].
  rewrite elementwise_shape by (autorewrite with shape; congruence).
  cbn [mbind result_bind].
  lazymatch goal with
  | |- mbind _ (Pure.matmul ?A ?B) = _ =>
      assert (Pure.matmul A B = Raise ValueError) as ->
        by (unfold Pure.matmul; by rewrite decide_False)
  end.
  reflexivity.
Qed.

(** A prior without the attribute its class selects (a state that is not
    in information form and has no covariance) makes [predict] raise
    [AttributeError], once the mean has been predicted. *)
Theorem predict_no_second_moment (self : InfoFilterPredictor result ndarray)
    prior ts kw F1 F Q :
  let tm := transition_model self in
  let cm := control_model self in
  let dt := _predict_over_interval prior ts in
  "time_interval"%string ∉ kw.*1 ->
  tm_matrix tm None dt kw = Ok F1 ->
  tm_matrix tm (Some prior) dt kw = Ok F ->
  tm_covar tm dt kw = Ok Q ->
  ncols F1 = nrows (state_vector prior) ->
  nrows F1 = nrows (control_vector cm) ->
  ncols (state_vector prior) = ncols (control_vector cm) ->
  Spec.second_moment prior = None ->
  predict self prior ts kw = Raise AttributeError.
Proof.
  intros tm cm dt Hkw HF1 HF HQ Hc Hr Hc' HY.
  unfold predict, _transition_function, _transition_matrix, _control_matrix,
    _noise_transition_matrix, control_input, cm_matrix, pass_time_interval.
  rewrite bool_decide_eq_false_2 by done.
  fold tm cm dt. rewrite HF1, HF, HQ, !selected_getattr, HY.
  cbn [mbind result_bind mret result_ret np_matmul np_add np_sub np_T np_inv
       np_identity np_ones np_zeros Pure.numpy].
  rewrite (matmul_shape F1) by done. cbn [mbind result_bind].
  rewrite elementwise_shape by (autorewrite with shape; done).
  reflexivity.
Qed.

End Reads.

(** ** The cache of [predict]: what it holds *)

Section LruCacheInvariant.

Import functools.

Context {K V : Type} `{!EqDecision K}.
Variable maxsize : nat.
Variable f : K -> result V.

Lemma assoc_None_keys k (l : list (K * V)) : assoc k l = None <-> k ∉ l.*1.
Proof.
  induction l as [|[k' v'] l IH]; simpl.
  - split; [intros _; apply not_elem_of_nil|done].
  - rewrite not_elem_of_cons. case_decide as E.
    + split; [done|]. intros [? _]. by subst.
    + rewrite IH. split; [by split|by intros []].
Qed.

Lemma keys_remove k k' (l : list (K * V)) : k ∈ (remove k' l).*1 -> k <> k' /\ k ∈ l.*1.
Proof.
  induction l as [|[k0 v0] l IH]; simpl.
  - by intros ?%elem_of_nil.
  - case_decide as E.
    + intros [? ?]%IH. split; [done|]. by right.
    + simpl. intros [->|[? ?]%IH]%elem_of_cons.
      * split; [done|]. by left.
      * split; [done|]. by right.
Qed.

Lemma NoDup_keys_remove k (l : list (K * V)) : NoDup l.*1 -> NoDup (remove k l).*1.
Proof.
  induction l as [|[k0 v0] l IH]; simpl; [done|].
  intros [Hn Hd]%NoDup_cons. case_decide; [by apply IH|].
  simpl. apply NoDup_cons. split; [|by apply IH].
  intros [_ ?]%keys_remove. done.
Qed.

Lemma length_remove_le k (l : list (K * V)) : length (remove k l) <= length l.
Proof.
  induction l as [|[k0 v0] l IH]; simpl; [done|].
  case_decide; simpl; lia.
Qed.

Lemma length_remove_found k v (l : list (K * V)) :
  assoc k l = Some v -> length (remove k l) < length l.
Proof.
  induction l as [|[k0 v0] l IH]; simpl; [done|].
  case_decide.
  - intros _. pose proof (length_remove_le k l). lia.
  - intros ?%IH. simpl. lia.
Qed.

Local Abbreviation bounded := (@lru_bounded K V maxsize).

Lemma bounded_empty : bounded 0 empty.
Proof. split_and!; simpl; [lia|constructor|done]. Qed.

Lemma call_bounded k c calls :
  bounded calls c -> bounded (S calls) (snd (call maxsize f k c)).
Proof.
  intros (Hlen & Hnd & Hcnt). unfold call.
  destruct (assoc k (entries c)) as [v|] eqn:E; cbn [snd].
  - unfold hit, lru_bounded. cbn [entries hits misses]. split_and!.
    + pose proof (length_remove_found k v _ E). simpl. lia.
    + simpl. apply NoDup_cons. split; [|by apply NoDup_keys_remove].
      intros [? _]%keys_remove. done.
    + lia.
  - unfold miss, lru_bounded. destruct (f k) as [v|e]; cbn [entries hits misses].
    + split_and!.
      * rewrite length_take. lia.
      * rewrite fmap_take. eapply sublist_NoDup; [|apply sublist_take].
        simpl. apply NoDup_cons. split; [|done].
        by apply assoc_None_keys.
      * lia.
    + split_and!; [done|done|lia].
Qed.

Lemma calls_bounded (ks : list K) : forall c calls,
  bounded calls c ->
  bounded (calls + length ks) (foldl (fun c k' => snd (call maxsize f k' c)) c ks).
Proof.
  induction ks as [|k ks IH]; intros c calls Hc; simpl.
  - by rewrite Nat.add_0_r.
  - replace (calls + S (length ks)) with (S calls + length ks) by lia.
    apply IH. by apply call_bounded.
Qed.

(** A call whose function raises, on a cache that holds results of the
    function only, is a miss that stores nothing. *)
Lemma call_raises k e c :
  consistent f c -> f k = Raise e ->
  call maxsize f k c = (Raise e, mkCache (entries c) (hits c) (S (misses c))).
Proof.
  intros Hc He. unfold call.
  destruct (assoc k (entries c)) as [v|] eqn:E.
  - apply Hc in E. congruence.
  - by rewrite He.
Qed.

End LruCacheInvariant.

Section CacheContents.

Variable instances : nat -> InfoFilterPredictor result ndarray.


(** An exception is never cached: whatever calls were made before, a
    call whose arguments make the body of [predict] raise runs the body
    (it is counted as a miss), raises that exception, and leaves the
    entries of the cache as they are. *)
Theorem predict_cached_raise (cs : list (call ndarray)) c e :
  predict_body instances c = Raise e ->
  let cache := after_calls instances cs functools.empty in
  predict_cached instances c cache
  = (Raise e,
     functools.mkCache (functools.entries cache) (functools.hits cache)
       (S (functools.misses cache))).
Proof.
  intros He cache. unfold predict_cached. apply call_raises; [|done].
  unfold cache. rewrite after_calls_foldl.
  apply calls_consistent, consistent_empty.
Qed.

End CacheContents.

(** ** Stores built by the particle constructors *)

Section ParticleAncestry.

Import ParticleTypes ParticleStores.

Lemma shallow_clear (st : store) p : shallow st -> shallow (alter clear_parent p st).
Proof.
  intros Hs l o q Hl Hq.
  destruct (decide (l = p)) as [->|Hne].
  - rewrite list_lookup_alter_eq in Hl.
    destruct (st !! p) as [o0|]; simplify_eq/=.
  - rewrite list_lookup_alter_ne in Hl by done.
    destruct (Hs l o q Hl Hq) as (Hlt & po & Hpo & Hnone).
    split; [done|].
    destruct (decide (q = p)) as [->|Hne'].
    + exists (clear_parent po). rewrite list_lookup_alter_eq, Hpo. done.
    + exists po. by rewrite list_lookup_alter_ne.
Qed.

Lemma shallow_new (st : store) new :
  shallow st ->
  match parent new with
  | Some p => p < length st /\ exists po, st !! p = Some po /\ parent po = None
  | None => True
  end ->
  shallow (st ++ [new]).
Proof.
  intros Hs Hnew l o q Hl Hq.
  destruct (decide (l < length st)) as [Hlt|Hge].
  - rewrite lookup_app_l in Hl by done.
    destruct (Hs l o q Hl Hq) as (? & po & Hpo & ?).
    split; [done|]. exists po. split; [|done].
    rewrite lookup_app_l; [done|]. by eapply lookup_lt_Some.
  - pose proof (lookup_lt_Some _ _ _ Hl) as Hl'. rewrite length_app in Hl'. simpl in Hl'.
    assert (l = length st) as -> by lia.
    rewrite lookup_app_r, Nat.sub_diag in Hl by lia. simplify_eq/=.
    rewrite Hq in Hnew. destruct Hnew as (Hlt & po & Hpo & Hnone).
    split; [done|]. exists po. split; [|done]. by rewrite lookup_app_l.
Qed.

Lemma shallow_init (st : store) parent' new :
  shallow st -> parent_arg_ok parent' st -> parent new = parent' ->
  shallow ((if truth parent' then setattr_parent_None parent' st else st) ++ [new]).
Proof.
  intros Hs Hok Hp. destruct parent' as [p|]; simpl.
  - apply shallow_new; [by apply shallow_clear|].
    rewrite Hp. simpl in Hok. rewrite length_alter. split; [done|].
    destruct (lookup_lt_is_Some_2 st p Hok) as [po Hpo].
    exists (clear_parent po). by rewrite list_lookup_alter_eq, Hpo.
  - apply shallow_new; [done|]. by rewrite Hp.
Qed.

(** In a store built by the two constructors alone, the parent of a
    particle is an older particle that has no parent: links never form a
    cycle, and no ancestry is kept beyond one generation. *)
Theorem constructed_parents (st : store) :
  constructed st ->
  forall l o p, st !! l = Some o -> parent o = Some p ->
    p < l /\ exists po, st !! p = Some po /\ parent po = None.
Proof.
  intros Hc. change (shallow st).
  induction Hc as [|st sv w pa Hc IH Hok|st sv w dm pa Hc IH Hok].
  - intros l o p Hl. by rewrite lookup_nil in Hl.
  - unfold Particle_init. cbn [snd]. by apply shallow_init.
  - unfold MultiModelParticle_init. cbn [snd]. by apply shallow_init.
Qed.

End ParticleAncestry.

(** ** Intervals of chained predictions *)

Section Intervals.

Variable self : InfoFilterPredictor result ndarray.

(** The estimate a call returns carries the target timestamp, so for a
    next call from it the interval is counted from there: the intervals
    of the two calls add up to the interval of a direct call, and after a
    call without timestamp every next interval is undefined. *)
Theorem predict_intervals prior ts kw r :
  predict self prior ts kw = Ok r ->
  forall ts',
    (ts = None -> _predict_over_interval r ts' = None)
    /\ forall t0 t1 t2,
        timestamp prior = Some t0 -> ts = Some t1 -> ts' = Some t2 ->
        _predict_over_interval prior ts = Some (t1 - t0)%Z
        /\ _predict_over_interval r ts' = Some (t2 - t1)%Z
        /\ _predict_over_interval prior ts' = Some ((t1 - t0) + (t2 - t1))%Z.
Proof.
  intros Hr ts'.
  apply predict_Ok_inv in Hr as (F1 & F & Q & Y & iFT & iF & iQ & iS & H).
  cbn zeta in H. destruct H as (_ & _ & _ & _ & _ & _ & _ & _ & ->).
  unfold _predict_over_interval. cbn [timestamp]. split.
  - intros ->. by destruct ts'.
  - intros t0 t1 t2 -> -> ->. split_and!; [done|done|]. f_equal. lia.
Qed.

End Intervals.

(** ** Instances *)

Section Instances.

Import MoreSamples.

Ltac cv_side :=
  lazymatch goal with
  | |- predict _ _ _ _ = _ => first [exact cv_prediction | vm_decide]
  | |- match _ with _ => _ end = _ => vm_decide
  | |- _ ∉ _ => simpl; apply not_elem_of_nil
  | |- _ <> _ => vm_decide
  | |- _ => first [intros; reflexivity | by repeat split]
  end.

Lemma predict_outcome_witness :
  match predict cv_predictor prior10 (Some 1%Z) [] with
  | Ok r =>
      exists iFT iF iQ iSigma,
        inverse (transpose cvF) = Some iFT /\ inverse cvF = Some iF
        /\ inverse cvQ = Some iQ
        /\ let M := Spec.M iFT (identity 2) iF in
           let Sigma := madd M iQ in
           let Omega := mmul M iSigma in
           inverse Sigma = Some iSigma
           /\ r = mkState InformationStatePrediction
                    (madd (mmul (mmul (msub (ones 2 2) Omega) iFT) (state_vector prior10))
                          (mmul (identity 2) (zeros 2 1)))
                    (Some (msub M (mmul (mmul Omega Sigma) (transpose Omega)))) None
                    (Some 1%Z)
  | Raise e =>
      e = LinAlgError
      /\ (inverse (transpose cvF) = None
          \/ inverse cvF = None
          \/ inverse cvQ = None
          \/ exists iFT iF iQ,
               inverse (transpose cvF) = Some iFT /\ inverse cvF = Some iF
               /\ inverse cvQ = Some iQ
               /\ inverse (madd (Spec.M iFT (identity 2) iF) iQ) = None)
  end.
Proof.
  apply (predict_outcome cv_predictor prior10 (Some 1%Z) [] cvF cvF cvQ (identity 2));
    cv_side.
Defined.

Lemma predict_chains_witness :
  is_information cv_prediction_result = true
  /\ timestamp cv_prediction_result = Some 1%Z
  /\ exists Y', Spec.second_moment cv_prediction_result = Some Y'
      /\ Spec.well_shaped 2 cvF cvF cvQ Y' (state_vector cv_prediction_result)
           (zeros 2 1) (zeros 2 2) (zeros 2 2).
Proof.
  apply (predict_chains cv_predictor prior10 (Some 1%Z) [] cvF cvF cvQ (identity 2));
    cv_side.
Defined.

Lemma blank_prediction_returned :
  predict cv_predictor blank_prior (Some 1%Z) [] = Ok blank_prediction.
Proof. vm_decide. Qed.

Lemma predict_no_information_witness :
  info_matrix blank_prediction = Some (zeros 2 2).
Proof.
  apply (predict_no_information cv_predictor blank_prior (Some 1%Z) [] cvF cvF cvQ
           (zeros 2 2));
    first [exact blank_prediction_returned | cv_side].
Defined.

Lemma predict_no_control_term_witness :
  exists iFT iF iQ iSigma,
    inverse (transpose cvF) = Some iFT /\ inverse cvF = Some iF /\ inverse cvQ = Some iQ
    /\ let M := Spec.M iFT (identity 2) iF in
       inverse (madd M iQ) = Some iSigma
       /\ state_vector cv_prediction_result
          = mmul (mmul (msub (ones 2 2) (mmul M iSigma)) iFT) (state_vector prior10).
Proof.
  apply (predict_no_control_term cv_predictor prior10 (Some 1%Z) [] cvF cvF cvQ
           (identity 2));
    cv_side.
Defined.

Lemma predict_prior_attributes_witness :
  predict cv_predictor gaussian10 (Some 1%Z) []
  = predict cv_predictor prior10 (Some 1%Z) [].
Proof.
  apply (predict_prior_attributes cv_predictor gaussian10 prior10 (Some 1%Z) []);
    cv_side.
Defined.

Lemma unit_control_prediction :
  predict (mkInfoFilterPredictor cv_model unit_control) prior10 (Some 1%Z) []
  = Ok cv_prediction_result.
Proof. vm_decide. Qed.

Lemma predict_ignores_control_matrix_witness :
  predict (mkInfoFilterPredictor cv_model (Spec.zero_effect 2)) prior10 (Some 1%Z) []
  = Ok cv_prediction_result
  /\ predict (mkInfoFilterPredictor cv_model unit_control) prior10 (Some 1%Z) []
     = Ok cv_prediction_result
  /\ cv_prediction_result = cv_prediction_result.
Proof.
  split; [exact cv_prediction|]. split; [exact unit_control_prediction|].
  exact (predict_ignores_control_matrix cv_model (Spec.zero_effect 2) unit_control
           prior10 (Some 1%Z) [] _ _ eq_refl eq_refl cv_prediction
           unit_control_prediction).
Defined.

Lemma predict_control_noise_mismatch_witness :
  predict (mkInfoFilterPredictor cv_model mismatched_control) prior10 (Some 1%Z) []
  = Raise ValueError.
Proof.
  apply (predict_control_noise_mismatch
           (mkInfoFilterPredictor cv_model mismatched_control) prior10 (Some 1%Z) []
           cvF cvF cvQ (identity 2));
    cv_side.
Defined.

Lemma predict_ndim_mismatch_witness :
  predict (mkInfoFilterPredictor odd_model (Spec.zero_effect 2)) prior10 (Some 1%Z) []
  = Raise ValueError.
Proof.
  eapply (predict_ndim_mismatch (mkInfoFilterPredictor odd_model (Spec.zero_effect 2))
            prior10 (Some 1%Z) [] cvF cvF cvQ (identity 2));
    lazymatch goal with
    | |- inverse _ = Some _ => vm_compute; reflexivity
    | |- _ => cv_side
    end.
Defined.

Lemma predict_no_second_moment_witness :
  predict cv_predictor plain_state (Some 1%Z) [] = Raise AttributeError.
Proof.
  apply (predict_no_second_moment cv_predictor plain_state (Some 1%Z) [] cvF cvF cvQ);
    cv_side.
Defined.

Lemma predict_cached_raise_witness :
  let cache := after_calls singular_instances [cv_call 1] functools.empty in
  predict_cached singular_instances (cv_call 1) cache
  = (Raise LinAlgError,
     functools.mkCache (functools.entries cache) (functools.hits cache)
       (S (functools.misses cache))).
Proof.
  apply (predict_cached_raise singular_instances [cv_call 1] (cv_call 1) LinAlgError).
  vm_decide.
Defined.

Lemma two_particles_constructed : ParticleStores.constructed two_particles.
Proof.
  change two_particles with
    (snd (ParticleTypes.Particle_init (ParticleTypes.Sequence [qz 1]) (q 1 2) (Some 0)
            (snd (ParticleTypes.Particle_init (ParticleTypes.Sequence [qz 0]) (q 1 2)
                    None [])))).
  apply ParticleStores.constructed_Particle; [|simpl; lia].
  apply ParticleStores.constructed_Particle; [|done].
  apply ParticleStores.constructed_empty.
Qed.

Lemma constructed_parents_witness :
  0 < 1
  /\ exists po, two_particles !! 0 = Some po /\ ParticleTypes.parent po = None.
Proof.
  apply (constructed_parents two_particles two_particles_constructed 1
           (ParticleTypes.mkObject ParticleTypes.Particle (Some [qz 1]) (q 1 2) None
              (Some 0)) 0);
    reflexivity.
Defined.

Lemma predict_intervals_witness :
  (Some 1%Z = None -> _predict_over_interval cv_prediction_result (Some 3%Z) = None)
  /\ forall t0 t1 t2,
      timestamp prior10 = Some t0 -> Some 1%Z = Some t1 -> Some 3%Z = Some t2 ->
      _predict_over_interval prior10 (Some 1%Z) = Some (t1 - t0)%Z
      /\ _predict_over_interval cv_prediction_result (Some 3%Z) = Some (t2 - t1)%Z
      /\ _predict_over_interval prior10 (Some 3%Z) = Some ((t1 - t0) + (t2 - t1))%Z.
Proof.
  exact (predict_intervals cv_predictor prior10 (Some 1%Z) [] cv_prediction_result
           cv_prediction (Some 3%Z)).
Defined.

End Instances.
